(** * TILDE / TILDEv2 (modeling.py): a shallow embedding and its properties

    The development follows [src/modeling.py]:

    - [TILDE] (Model A): the bi-directional query/passage likelihood loss
      of [training_step];
    - [TILDEv2] (Model B): [encode], [mask_sep], [compute_tok_score_cart]
      and [forward];
    - [TILDEv2Trainer]: [_save] and [get_train_dataloader].

    Modelling choices.

    - Floating-point values are elements of an abstract type [F] carrying
      the operations the code uses (class [Scalar]); whatever a theorem
      needs of the arithmetic is stated as a law (classes [NegLaws],
      [SignLaws]).  The rationals, the reals and the IEEE 754 binary32
      floats of [torch.float32] are instances.
    - A torch tensor is a shape with its elements in row-major order
      (record [tensor]), the layout of a contiguous tensor; each torch
      operation used by the source has a counterpart of the same name.
      An operation that raises in torch returns [None].
    - The pretrained backbone, the linear projection, the cross-entropy of
      torch and the stop-word helper [tools.get_stop_ids] are external to
      [modeling.py]; they are parameters of the definitions that call them.
    - [mask_sep] mutates its argument: integer tensors that the caller
      shares live in a heap of references. *)

From Stdlib Require Import ZArith QArith Qminmax Reals Lia Lra Ascii SpecFloat.
From stdpp Require Import base option list gmap strings.

(** ** Scalars *)

(** The float operations used by [modeling.py].  [of_Z] is the conversion
    torch and Python apply when an integer meets a float. *)
Class Scalar (F : Type) := {
  fzero : F;
  fone : F;
  fadd : F → F → F;
  fsub : F → F → F;
  fmul : F → F → F;
  fdiv : F → F → F;
  fneg : F → F;
  fmax : F → F → F;
  fle : F → F → Prop;
  of_Z : Z → F;
}.

(** [torch.log] and [torch.sigmoid]. *)
Class Transcendental (F : Type) := {
  flog : F → F;
  fsigmoid : F → F;
}.

Global Instance scalar_inhabited `{Scalar F} : Inhabited F := populate fzero.

(** Subtraction is addition of the opposite, the opposite of a sum is the
    sum of the opposites, adding to zero changes nothing, and integer zero
    converts to float zero. *)
Class NegLaws (F : Type) `{Scalar F} : Prop := {
  fsub_def : ∀ a b : F, fsub a b = fadd a (fneg b);
  fneg_add : ∀ a b : F, fneg (fadd a b) = fadd (fneg a) (fneg b);
  fadd_0_l : ∀ a : F, fadd fzero a = a;
  of_Z_zero : of_Z 0 = fzero;
}.

(** [torch.isfinite]: neither an infinity nor NaN. *)
Class Finite (F : Type) := {
  finite : F → Prop;
}.

(** A finite value that is not negative. *)
Definition fin_nonneg `{Scalar F, Finite F} (a : F) : Prop :=
  fle fzero a ∧ finite a.

(** What the sign arguments need, in the form that holds of IEEE floats.
    A sum of non-negative values is non-negative (it may be infinite); a
    product of non-negative values is non-negative when it is finite
    (infinity times zero is NaN, and a product of finite values may
    overflow to infinity); on a finite non-negative value, adding it to
    zero and multiplying it by 0 or 1 give a finite non-negative value;
    so does the maximum of two such values, and the maximum of any finite
    value and zero. *)
Class SignLaws (F : Type) `{Scalar F, Finite F} : Prop := {
  fin_nonneg_zero : fin_nonneg fzero;
  fin_nonneg_one : fin_nonneg fone;
  nonneg_add : ∀ a b : F, fle fzero a → fle fzero b → fle fzero (fadd a b);
  nonneg_mul : ∀ a b : F,
    fle fzero a → fle fzero b → finite (fmul a b) → fle fzero (fmul a b);
  fin_nonneg_add_zero : ∀ a : F, fin_nonneg a → fin_nonneg (fadd fzero a);
  fin_nonneg_max : ∀ a b : F, fin_nonneg a → fin_nonneg b → fin_nonneg (fmax a b);
  fin_nonneg_mul_one_r : ∀ a : F, fin_nonneg a → fin_nonneg (fmul a fone);
  fin_nonneg_mul_zero_r : ∀ a : F, fin_nonneg a → fin_nonneg (fmul a fzero);
  fin_nonneg_mul_one_l : ∀ a : F, fin_nonneg a → fin_nonneg (fmul fone a);
  fin_nonneg_mul_zero_l : ∀ a : F, fin_nonneg a → fin_nonneg (fmul fzero a);
  fin_nonneg_relu : ∀ a : F, finite a → fin_nonneg (fmax a fzero);
  of_Z_0 : of_Z 0 = fzero;
  of_Z_1 : of_Z 1 = fone;
}.

(** ** Tensors *)

Record tensor (A : Type) := Tensor { shape : list nat; data : list A }.
Arguments Tensor {A} _ _.
Arguments shape {A} _.
Arguments data {A} _.

(** Number of elements of a shape. *)
Definition numel (sh : list nat) : nat := foldr Nat.mul 1 sh.

(** A tensor is well formed when it stores one element per index. *)
Definition wf {A} (t : tensor A) : Prop := length (data t) = numel (shape t).

(** Row-major offset of a multi-index, and its inverse. *)
Fixpoint ravel (sh idx : list nat) : nat :=
  match sh, idx with
  | _ :: sh', i :: idx' => i * numel sh' + ravel sh' idx'
  | _, _ => 0
  end.

Fixpoint unravel (sh : list nat) (n : nat) : list nat :=
  match sh with
  | [] => []
  | _ :: sh' => (n / numel sh') :: unravel sh' (n mod numel sh')
  end.

Definition in_bounds (sh idx : list nat) : Prop := Forall2 lt idx sh.

(** All the multi-indices of a shape, in row-major order. *)
Definition indices (sh : list nat) : list (list nat) :=
  unravel sh <$> seq 0 (numel sh).

(** Element at a multi-index.  The operations below only read inside the
    bounds of well-formed tensors; the inhabitant is never observed there. *)
Definition tget `{Inhabited A} (t : tensor A) (idx : list nat) : A :=
  default inhabitant (data t !! ravel (shape t) idx).

(** The tensor of a shape whose element at [idx] is [f idx]. *)
Definition tinit {A} (sh : list nat) (f : list nat → A) : tensor A :=
  Tensor sh (f <$> indices sh).

Definition tmap {A B} (f : A → B) (t : tensor A) : tensor B :=
  Tensor (shape t) (f <$> data t).

(** [t.size(k)]. *)
Definition tsize {A} (t : tensor A) (k : nat) : option nat := shape t !! k.

(** [t.unsqueeze(k)]: a dimension of size 1 inserted at position [k]. *)
Definition unsqueeze {A} (k : nat) (t : tensor A) : option (tensor A) :=
  if k <=? length (shape t)
  then Some (Tensor (take k (shape t) ++ 1 :: drop k (shape t)) (data t))
  else None.

(** [t.view(-1, 1)]. *)
Definition view_m1_1 {A} (t : tensor A) : tensor A :=
  Tensor [numel (shape t); 1] (data t).

(** [t.view(-1)]. *)
Definition view_m1 {A} (t : tensor A) : tensor A :=
  Tensor [numel (shape t)] (data t).

(** [t.view( *sh )]: the same elements under another shape of as many
    elements. *)
Definition view {A} (sh : list nat) (t : tensor A) : option (tensor A) :=
  if numel sh =? numel (shape t) then Some (Tensor sh (data t)) else None.

(** [t.transpose(0, 1)]. *)
Definition transpose01 `{Inhabited A} (t : tensor A) : option (tensor A) :=
  match shape t with
  | n :: m :: sh =>
      Some (tinit (m :: n :: sh)
              (λ idx, match idx with
                      | j :: i :: r => tget t (i :: j :: r)
                      | _ => inhabitant
                      end))
  | _ => None
  end.

(** *** Broadcasting *)

Definition bdim (x y : nat) : option nat :=
  if x =? 1 then Some y
  else if y =? 1 then Some x
  else if x =? y then Some x
  else None.

Fixpoint bdims (a b : list nat) : option (list nat) :=
  match a, b with
  | [], [] => Some []
  | x :: a', y :: b' => s ← bdim x y; r ← bdims a' b'; Some (s :: r)
  | _, _ => None
  end.

(** Shapes are aligned on their last dimension. *)
Definition pad_rank (r : nat) (sh : list nat) : list nat :=
  replicate (r - length sh) 1 ++ sh.

Definition broadcast_shape (a b : list nat) : option (list nat) :=
  let r := length a `max` length b in
  bdims (pad_rank r a) (pad_rank r b).

(** The index an operand of shape [sh] is read at for the index [idx] of
    the result: dimensions of size 1 are read at 0. *)
Definition bsel (s i : nat) : nat := if s =? 1 then 0 else i.

Definition bidx (r : nat) (sh idx : list nat) : list nat :=
  drop (r - length sh) (zip_with bsel (pad_rank r sh) idx).

Definition broadcast2 `{Inhabited A, Inhabited B} {C} (f : A → B → C)
    (a : tensor A) (b : tensor B) : option (tensor C) :=
  sh ← broadcast_shape (shape a) (shape b);
  Some (tinit sh (λ idx,
          f (tget a (bidx (length sh) (shape a) idx))
            (tget b (bidx (length sh) (shape b) idx)))).

(** *** Reductions and slices *)

Definition insert_at {A} (k : nat) (x : A) (l : list A) : list A :=
  take k l ++ x :: drop k l.

Definition remove_at {A} (k : nat) (l : list A) : list A :=
  take k l ++ drop (S k) l.

(** The elements of [t] along dimension [k], the other coordinates being
    those of [idx]. *)
Definition fibre `{Inhabited A} (k : nat) (t : tensor A) (n : nat)
    (idx : list nat) : list A :=
  (λ l, tget t (insert_at k l idx)) <$> seq 0 n.

(** [t[:, ..., start:]] along dimension [k]. *)
Definition slice_from `{Inhabited A} (k start : nat) (t : tensor A)
    : option (tensor A) :=
  n ← shape t !! k;
  Some (tinit (<[k := n - start]> (shape t))
          (λ idx, tget t (alter (λ i, i + start) k idx))).

(** [t[i]]: the [i]-th sub-tensor along the first dimension. *)
Definition select0 {A} (t : tensor A) (i : nat) : option (tensor A) :=
  match shape t with
  | n :: sh =>
      if i <? n
      then Some (Tensor sh (take (numel sh) (drop (i * numel sh) (data t))))
      else None
  | [] => None
  end.

(** [t[:, j]]: the [j]-th sub-tensor along the second dimension. *)
Definition select1 `{Inhabited A} (t : tensor A) (j : nat) : option (tensor A) :=
  match shape t with
  | n :: m :: sh =>
      if j <? m
      then Some (tinit (n :: sh)
                   (λ idx, match idx with
                           | i :: r => tget t (i :: j :: r)
                           | [] => inhabitant
                           end))
      else None
  | _ => None
  end.

(** [reduce_dim k g t]: the reduction [g] applied along dimension [k],
    which disappears from the shape. *)
Definition reduce_dim `{Inhabited A} {B} (k : nat) (g : list A → B)
    (t : tensor A) : option (tensor B) :=
  n ← shape t !! k;
  Some (tinit (remove_at k (shape t)) (λ idx, g (fibre k t n idx))).

(** Element written at a multi-index. *)
Definition tset {A} (t : tensor A) (idx : list nat) (v : A) : tensor A :=
  Tensor (shape t) (<[ravel (shape t) idx := v]> (data t)).

(** [self.scatter_(k, index, src)]: for every index [idx] of [index],
    [self[idx with its k-th coordinate replaced by index[idx]] = src[idx]].
    torch rejects operands of different ranks, an [index] larger than
    [self] (off dimension [k]) or than [src], and an index value outside
    [0, self.size(k))]. *)
Definition scatter_step `{Inhabited A} (k n : nat) (index : tensor Z)
    (src : tensor A) (acc : option (tensor A)) (idx : list nat)
    : option (tensor A) :=
  t ← acc;
  let v := tget index idx in
  if (0 <=? v)%Z && (v <? Z.of_nat n)%Z
  then Some (tset t (<[k := Z.to_nat v]> idx) (tget src idx))
  else None.

Definition scatter `{Inhabited A} (k : nat) (self : tensor A)
    (index : tensor Z) (src : tensor A) : option (tensor A) :=
  n ← shape self !! k;
  if decide (Forall2 le (remove_at k (shape index)) (remove_at k (shape self))
             ∧ length (shape index) = length (shape self)
             ∧ Forall2 le (shape index) (shape src))
  then foldl (scatter_step k n index src) (Some self) (indices (shape index))
  else None.

Definition zeros_like (t : tensor Z) : tensor Z := tmap (λ _, 0%Z) t.

(** [torch.arange(n, dtype=torch.long)]. *)
Definition arange (n : nat) : tensor Z := Tensor [n] (Z.of_nat <$> seq 0 n).

Definition sumZ (l : list Z) : Z := foldl Z.add 0%Z l.

(** [torch.where(cond)[0]]: the first coordinate of every index at which
    [cond] holds, in row-major order (torch reads a 0-dimensional
    condition as a vector of one element). *)
Definition where0 (cond : tensor bool) : option (tensor Z) :=
  match shape cond with
  | [] => Some (if tget cond [] then Tensor [1] [0%Z] else Tensor [0] [])
  | _ :: _ =>
      let hits := filter (λ idx, tget cond idx = true) (indices (shape cond)) in
      Some (Tensor [length hits] ((λ idx, Z.of_nat (default 0 (head idx))) <$> hits))
  end.

(** Python's reading of an index: a negative one counts from the end. *)
Definition norm_index (n : nat) (v : Z) : nat :=
  Z.to_nat (if (v <? 0)%Z then v + Z.of_nat n else v).

(** [t[ids]] for an integer tensor [ids]: the sub-tensors of [t] along its
    first dimension picked by [ids]; an index outside [-n, n) raises. *)
Definition index_select `{Inhabited A} (t : tensor A) (ids : tensor Z)
    : option (tensor A) :=
  match shape t with
  | n :: sh =>
      if forallb (λ v, (- Z.of_nat n <=? v)%Z && (v <? Z.of_nat n)%Z) (data ids)
      then
        let r := length (shape ids) in
        Some (tinit (shape ids ++ sh)
                (λ idx, tget t (norm_index n (tget ids (take r idx)) :: drop r idx)))
      else None
  | [] => None
  end.

(** ** Float tensors *)

Section FloatTensors.
Context `{Scalar F}.

(** [torch.sum] of a list of floats, accumulated from 0. *)
Definition tsum (l : list F) : F := foldl fadd fzero l.

(** The maximum of a non-empty list. *)
Definition fmax_list (l : list F) : F :=
  match l with
  | [] => fzero
  | x :: l' => foldl fmax x l'
  end.

Definition relu (t : tensor F) : tensor F := tmap (λ x, fmax x fzero) t.

Definition nonneg (x : F) : Prop := fle fzero x.

(** [b.float()]. *)
Definition to_float (t : tensor bool) : tensor F :=
  tmap (λ b : bool, if b then fone else fzero) t.

(** [torch.ones_like(t, dtype=torch.float32)]. *)
Definition ones_like (t : tensor Z) : tensor F := tmap (λ _, fone) t.

(** [a == b] on integer tensors. *)
Definition teq (a b : tensor Z) : option (tensor bool) := broadcast2 Z.eqb a b.

(** [a * b] on float tensors. *)
Definition tmul (a b : tensor F) : option (tensor F) := broadcast2 fmul a b.

(** [a * m] for a float tensor [a] and an integer tensor [m]: the
    integers are converted. *)
Definition tmul_long (a : tensor F) (m : tensor Z) : option (tensor F) :=
  broadcast2 (λ x z, fmul x (of_Z z)) a m.

(** [torch.matmul] of two matrices, the operands the source gives it. *)
Definition matmul (a b : tensor F) : option (tensor F) :=
  match shape a, shape b with
  | [n; k], [k'; m] =>
      if k =? k'
      then Some (tinit [n; m]
                   (λ idx, match idx with
                           | [i; j] =>
                               tsum ((λ l, fmul (tget a [i; l]) (tget b [l; j]))
                                       <$> seq 0 k)
                           | _ => fzero
                           end))
      else None
  | _, _ => None
  end.

(** [t.max(dim=k)] (the values); torch refuses an empty dimension. *)
Definition tmax_dim (k : nat) (t : tensor F) : option (tensor F) :=
  n ← shape t !! k;
  if n =? 0 then None else reduce_dim k fmax_list t.

(** [t.sum(k)]. *)
Definition tsum_dim (k : nat) (t : tensor F) : option (tensor F) :=
  reduce_dim k tsum t.

End FloatTensors.

(** [t.sum(k)] on an integer tensor. *)
Definition tsum_dimZ (k : nat) (t : tensor Z) : option (tensor Z) :=
  reduce_dim k sumZ t.

(** Row [i] of a matrix, and the position [mask_sep] computes for it:
    [sum(row) - 1]. *)
Definition mask_row (m : tensor Z) (i : nat) : list Z :=
  (λ j, tget m [i; j]) <$> seq 0 (default 0 (shape m !! 1)).

Definition sep_index (m : tensor Z) (i : nat) : Z := (sumZ (mask_row m i) - 1)%Z.

(** The values of an attention mask. *)
Definition is_bit (z : Z) : Prop := z = 0%Z ∨ z = 1%Z.

(** ** Exceptions *)

Inductive exn :=
  | AssertionError
  | ValueError (msg : string)
  | CalleeError.

Inductive outcome (A : Type) :=
  | Ok (a : A)
  | Raise (e : exn).
Arguments Ok {A} _.
Arguments Raise {A} _.

(** ** References *)

(** The integer tensors of a batch are Python objects shared between the
    caller and the model: a dictionary of features maps a name to a
    reference, and the heap maps a reference to the tensor it holds. *)
Abbreviation loc := nat (only parsing).
Abbreviation heap := (gmap nat (tensor Z)) (only parsing).
Abbreviation features := (gmap string nat) (only parsing).

(** The tensors a dictionary of features holds. *)
Definition load (h : heap) (f : features) : gmap string (tensor Z) :=
  omap (λ l, h !! l) f.

(** ** Model B: TILDEv2 *)

Section TILDEv2.
Context `{Scalar F}.

(** A model instance.  [bert] stands for the call
    [self.bert( **features, return_dict=True).last_hidden_state] and
    [tok_proj] for the linear layer; [None] is an exception they raise. *)
Record TILDEv2 := {
  bert : gmap string (tensor Z) → option (tensor F);
  tok_proj : tensor F → option (tensor F);
  cross_entropy : tensor F → tensor Z → option F;
  train_group_size : Z;
}.

Definition required_keys : list string :=
  ["input_ids"; "attention_mask"; "token_type_ids"].

(** [encode] (lines 117-122). *)
Definition encode (self : TILDEv2) (h : heap) (feats : features)
    : outcome (tensor F) :=
  if forallb (λ x, bool_decide (is_Some (feats !! x))) required_keys
  then
    match bert self (load h feats) with
    | Some last_hidden_state =>
        match tok_proj self last_hidden_state with
        | Some reps => Ok (relu reps)
        | None => Raise CalleeError
        end
    | None => Raise CalleeError
    end
  else Raise AssertionError.

(** [mask_sep] (lines 158-162).  The mask is updated in the heap and the
    reference passed in is returned. *)
Definition mask_sep (qry_attention_mask : loc) (h : heap)
    : option (loc * heap) :=
  m ← h !! qry_attention_mask;
  s ← tsum_dimZ 1 m;
  s ← unsqueeze 1 s;
  let sep_pos := tmap (λ x, x - 1)%Z s in
  let _zeros := zeros_like sep_pos in
  m' ← scatter 1 m sep_pos _zeros;
  Some (qry_attention_mask, <[qry_attention_mask := m']> h).

(** The exact-match gate (lines 165-168). *)
Definition exact_match_gate (doc_input_ids qry_input_ids : tensor Z)
    : option (tensor F) :=
  qry_input_ids ← unsqueeze 2 qry_input_ids ≫= unsqueeze 3;
  doc_input_ids ← unsqueeze 0 doc_input_ids ≫= unsqueeze 1;
  exact_match ← teq doc_input_ids qry_input_ids;
  Some (to_float exact_match).

(** [compute_tok_score_cart] (lines 164-180). *)
Definition compute_tok_score_cart (doc_reps : tensor F) (doc_input_ids : tensor Z)
    (qry_reps : tensor F) (qry_input_ids qry_attention_mask : tensor Z)
    : option (tensor F) :=
  exact_match ← exact_match_gate doc_input_ids qry_input_ids;
  doc_row ← transpose01 (view_m1_1 doc_reps);
  scores_no_masking ← matmul (view_m1_1 qry_reps) doc_row;
  scores_no_masking ←
    view (take 2 (shape qry_reps) ++ take 2 (shape doc_reps)) scores_no_masking;
  gated ← tmul scores_no_masking exact_match;
  scores ← tmax_dim 3 gated;
  mask ← unsqueeze 2 qry_attention_mask;
  masked ← tmul_long scores mask;
  sliced ← slice_from 1 1 masked;
  tsum_dim 1 sliced.

(** The labels of the ranking loss (lines 147-154). *)
Definition ranking_labels (self : TILDEv2) (scores : tensor F)
    : option (tensor Z) :=
  n ← tsize scores 0;
  let labels := arange n in
  Some (tmap (λ l, l * train_group_size self)%Z labels).

(** [forward] (lines 124-156): the loss, the flattened scores and the heap
    it leaves. *)
Definition forward (self : TILDEv2) (qry_in doc_in : features) (h : heap)
    : option (F * tensor F * heap) :=
  doc_out ← bert self (load h doc_in);
  doc_reps ← tok_proj self doc_out;
  let doc_reps := relu doc_reps in
  doc_input_ids ← doc_in !! "input_ids";
  qry_input_ids ← qry_in !! "input_ids";
  qry_attention_mask ← qry_in !! "attention_mask";
  '(_, h) ← mask_sep qry_attention_mask h;
  qry_ids ← h !! qry_input_ids;
  doc_ids ← h !! doc_input_ids;
  qry_mask ← h !! qry_attention_mask;
  qry_reps ← unsqueeze 2 (ones_like qry_ids);
  tok_scores ← compute_tok_score_cart doc_reps doc_ids qry_reps qry_ids qry_mask;
  let scores := tok_scores in
  labels ← ranking_labels self scores;
  loss ← cross_entropy self scores labels;
  Some (loss, view_m1 scores, h).

End TILDEv2.

Arguments TILDEv2 F : clear implicits.

(** ** Model A: TILDE *)

Section TILDE.
Context `{Scalar F, Transcendental F}.

Record Tokenizer := { vocab_size : Z }.

(** A model instance.  [bert_lm] stands for the call
    [self.bert(input_ids=..., token_type_ids=..., attention_mask=...,
    return_dict=True).logits]. *)
Record TILDE := {
  bert_lm : tensor Z → tensor Z → tensor Z → option (tensor F);
  tokenizer : Tokenizer;
  num_valid_tok : Z;
}.

(** [__init__] (lines 13-25), given the backbone and the tokenizer that
    [from_pretrained] loaded.  [tools.get_stop_ids] is not part of
    [modeling.py]: it is a parameter, a function from the tokenizer to a
    set of token ids. *)
Definition TILDE_init (get_stop_ids : Tokenizer → gset Z)
    (lm : tensor Z → tensor Z → tensor Z → option (tensor F))
    (tok : Tokenizer) : TILDE :=
  {| bert_lm := lm;
     tokenizer := tok;
     num_valid_tok := (vocab_size tok - Z.of_nat (size (get_stop_ids tok)))%Z |}.

(** The 10-tuple of a training batch. *)
Record Batch := {
  passage_input_ids : tensor Z;
  passage_token_type_ids : tensor Z;
  passage_attention_mask : tensor Z;
  yqs : tensor Z;
  neg_yqs : tensor Z;
  query_input_ids : tensor Z;
  query_token_type_ids : tensor Z;
  query_ttention_mask : tensor Z;
  yds : tensor Z;
  neg_yds : tensor Z;
}.

(** The accumulators of the loss start as the Python integer 0 and become
    tensors at the first subtraction. *)
Inductive pynum :=
  | PyInt (z : Z)
  | PyTensor (x : F).

Definition to_F (a : pynum) : F :=
  match a with
  | PyInt z => of_Z z
  | PyTensor x => x
  end.

(** [a -= x] for a tensor [x]. *)
Definition py_sub (a : pynum) (x : F) : pynum := PyTensor (fsub (to_F a) x).

Definition py_add (a b : pynum) : pynum :=
  match a, b with
  | PyInt x, PyInt y => PyInt (x + y)%Z
  | _, _ => PyTensor (fadd (to_F a) (to_F b))
  end.

(** [a / n] for a Python integer [n]: dividing an integer by the integer 0
    raises, dividing a tensor does not. *)
Definition py_div (a : pynum) (n : Z) : option F :=
  match a with
  | PyInt z => if (n =? 0)%Z then None else Some (fdiv (of_Z z) (of_Z n))
  | PyTensor x => Some (fdiv x (of_Z n))
  end.

(** [torch.sum(torch.log(prob[i][torch.where(ys[i] == 1)[0]]))]
    (lines 60, 63 and 65). *)
Definition pos_log_sum (prob : tensor F) (ys : tensor Z) (i : nat) : option F :=
  y ← select0 ys i;
  ids_plus ← where0 (tmap (λ v, v =? 1)%Z y);
  p ← select0 prob i;
  pos_probs ← index_select p ids_plus;
  Some (tsum (data (tmap flog pos_probs))).

(** [torch.sum(torch.log(1 - prob[i][torch.where(ys[i] == 0)[0]]))]
    (lines 61, 64 and 65). *)
Definition neg_log_sum (prob : tensor F) (ys : tensor Z) (i : nat) : option F :=
  y ← select0 ys i;
  ids_minus ← where0 (tmap (λ v, v =? 0)%Z y);
  p ← select0 prob i;
  neg_probs ← index_select p ids_minus;
  Some (tsum (data (tmap flog (tmap (fsub (of_Z 1)) neg_probs)))).

(** One iteration of the loop (lines 57-72). *)
Definition loss_step (batch_passage_prob batch_query_prob : tensor F)
    (batch : Batch) (acc : option (pynum * pynum)) (i : nat)
    : option (pynum * pynum) :=
  '(passage_pos_loss, query_pos_loss) ← acc;
  pp ← pos_log_sum batch_passage_prob (yqs batch) i;
  pn ← neg_log_sum batch_passage_prob (yqs batch) i;
  let passage_pos_loss := py_sub passage_pos_loss (fadd pp pn) in
  qp ← pos_log_sum batch_query_prob (yds batch) i;
  qn ← neg_log_sum batch_query_prob (yds batch) i;
  let query_pos_loss := py_sub query_pos_loss (fadd qp qn) in
  Some (passage_pos_loss, query_pos_loss).

(** [training_step] (lines 36-77); [self.log] only reports the loss. *)
Definition training_step (self : TILDE) (batch : Batch) : option F :=
  passage_logits ← bert_lm self (passage_input_ids batch)
                      (passage_token_type_ids batch) (passage_attention_mask batch);
  passage_outputs ← select1 passage_logits 0;
  query_logits ← bert_lm self (query_input_ids batch)
                    (query_token_type_ids batch) (query_ttention_mask batch);
  query_outputs ← select1 query_logits 0;
  batch_size ← tsize (yqs batch) 0;
  let batch_passage_prob := tmap fsigmoid passage_outputs in
  let batch_query_prob := tmap fsigmoid query_outputs in
  '(passage_pos_loss, query_pos_loss) ←
    foldl (loss_step batch_passage_prob batch_query_prob batch)
      (Some (PyInt 0, PyInt 0)) (seq 0 batch_size);
  py_div (py_add passage_pos_loss query_pos_loss) (num_valid_tok self * 2)%Z.

(** *** The loss as the specification words it *)

(** For one example with probabilities [p] and labels [y] over [V]
    vocabulary entries: minus the sum of [log p] over the entries labelled
    1, plus minus the sum of [log (1 - p)] over the entries labelled 0. *)
Definition spec_example_loss (V : nat) (p : nat → F) (y : nat → Z) : F :=
  fadd
    (fneg (tsum ((λ j, flog (p j)) <$> filter (λ j, y j = 1%Z) (seq 0 V))))
    (fneg (tsum ((λ j, flog (fsub (of_Z 1) (p j)))
                   <$> filter (λ j, y j = 0%Z) (seq 0 V)))).

(** One side: the sum over the [B] examples, [p] being the sigmoid of the
    logits at the first position. *)
Definition spec_side_loss (B V : nat) (logits : tensor F) (ys : tensor Z) : F :=
  tsum ((λ i, spec_example_loss V
                (λ j, fsigmoid (tget logits [i; 0; j]))
                (λ j, tget ys [i; j])) <$> seq 0 B).

(** Both sides, divided by twice the number of valid vocabulary tokens. *)
Definition spec_loss (B V : nat) (vocab n_stop : Z)
    (passage_logits query_logits : tensor F) (yq yd : tensor Z) : F :=
  fdiv (fadd (spec_side_loss B V passage_logits yq)
             (spec_side_loss B V query_logits yd))
       (of_Z ((vocab - n_stop) * 2)%Z).

End TILDE.

Arguments TILDE F : clear implicits.
Arguments pynum F : clear implicits.

(** ** The trainer *)

Section Trainer.
Context {Model Dataset Collator Sampler : Type}.

Record TrainingArguments := {
  output_dir : string;
  train_batch_size : Z;
  dataloader_num_workers : Z;
}.

(** What [_save] does to the file system, in order. *)
Inductive save_event :=
  | MakeDirs (dir : string)
  | ModelSavePretrained (dir : string)
  | TokenizerSavePretrained (dir : string)
  | TorchSave (args : TrainingArguments) (path : string).

(** The callees of [_save] ([os.makedirs], the two [save_pretrained] and
    [torch.save]) may raise: [fails] tells, for the file system and the
    objects at hand, which call does. *)
Record FileSystem := {
  fails : save_event → bool;
}.

(** How a call of [_save] ends: it returns, or the exception of a callee
    propagates. *)
Inductive save_result :=
  | Returned
  | RaisedAt (call : save_event).

Record DataLoader := {
  dl_dataset : Dataset;
  dl_batch_size : Z;
  dl_sampler : Sampler;
  dl_collate_fn : Collator;
  dl_drop_last : bool;
  dl_num_workers : Z;
}.

(** What [get_train_dataloader] does, in order. *)
Inductive loader_event :=
  | GetTrainSampler
  | NewDataLoader (dl : DataLoader).

(** The state of the trainer that the two methods read. *)
Record TILDEv2Trainer := {
  args : TrainingArguments;
  model : Model;
  has_tokenizer : bool;
  is_world_process_zero : bool;
  train_dataset : option Dataset;
  data_collator : Collator;
  _get_train_sampler : Sampler;
}.

(** [os.path.join(dir, name)] for a relative [name]. *)
Fixpoint ends_with_slash (s : string) : bool :=
  match s with
  | EmptyString => false
  | String c EmptyString => bool_decide (c = "/"%char)
  | String _ s' => ends_with_slash s'
  end.

Definition path_join (dir name : string) : string :=
  if bool_decide (dir = EmptyString) || ends_with_slash dir
  then dir +:+ name
  else dir +:+ "/" +:+ name.

(** Whether a call raises: [os.makedirs] raises [FileNotFoundError] on
    the empty path whatever the file system holds; any other call raises
    when the file system says so. *)
Definition raises (fs : FileSystem) (call : save_event) : bool :=
  match call with
  | MakeDirs EmptyString => true
  | _ => fails fs call
  end.

(** One call followed by the rest of the method: when the call raises,
    the rest does not run. *)
Definition perform (fs : FileSystem) (call : save_event)
    (rest : list save_event * save_result) : list save_event * save_result :=
  if raises fs call then ([], RaisedAt call) else (call :: rest.1, rest.2).

(** [_save] (lines 184-191): the calls that completed, in order, and how
    the method ended. *)
Definition _save (fs : FileSystem) (self : TILDEv2Trainer)
    (output_dir' : option string) : list save_event * save_result :=
  let output_dir := default (output_dir (args self)) output_dir' in
  perform fs (MakeDirs output_dir)
    (perform fs (ModelSavePretrained output_dir)
       ((if has_tokenizer self && is_world_process_zero self
         then perform fs (TokenizerSavePretrained output_dir)
         else λ rest, rest)
          (perform fs (TorchSave (args self)
                         (path_join output_dir "training_args.bin"))
             ([], Returned)))).

(** [get_train_dataloader] (lines 209-221): what it did and how it ended. *)
Definition get_train_dataloader (self : TILDEv2Trainer)
    : list loader_event * outcome DataLoader :=
  match train_dataset self with
  | None => ([], Raise (ValueError "Trainer: training requires a train_dataset."))
  | Some ds =>
      let train_sampler := _get_train_sampler self in
      let dl := {| dl_dataset := ds;
                   dl_batch_size := train_batch_size (args self);
                   dl_sampler := train_sampler;
                   dl_collate_fn := data_collator self;
                   dl_drop_last := true;
                   dl_num_workers := dataloader_num_workers (args self) |} in
      ([GetTrainSampler; NewDataLoader dl], Ok dl)
  end.

End Trainer.

(** ** Instances and sample data *)

(** Exact rational arithmetic. *)
Global Instance Q_scalar : Scalar Q := {|
  fzero := 0%Q;
  fone := 1%Q;
  fadd := Qplus;
  fsub := Qminus;
  fmul := Qmult;
  fdiv := Qdiv;
  fneg := Qopp;
  fmax := Qmax;
  fle := Qle;
  of_Z := inject_Z;
|}.

(** Real arithmetic, with the natural logarithm and the logistic
    function. *)
Global Instance R_scalar : Scalar R := {|
  fzero := 0%R;
  fone := 1%R;
  fadd := Rplus;
  fsub := Rminus;
  fmul := Rmult;
  fdiv := Rdiv;
  fneg := Ropp;
  fmax := Rmax;
  fle := Rle;
  of_Z := IZR;
|}.

Global Instance R_transcendental : Transcendental R := {|
  flog := ln;
  fsigmoid := λ x, (1 / (1 + exp (- x)))%R;
|}.

(** IEEE 754 binary32, the [torch.float32] of the code: 24 bits of
    precision, exponents up to 128, rounding to nearest even, the two
    infinities and NaN (the operations are those of the Standard
    Library's [SpecFloat]).  [torch.max] and [torch.relu] return NaN when
    an operand is NaN. *)
Definition f32_max (a b : spec_float) : spec_float :=
  match a, b with
  | S754_nan, _ | _, S754_nan => S754_nan
  | _, _ => if SFltb a b then b else a
  end.

Global Instance F32_scalar : Scalar spec_float := {|
  fzero := S754_zero false;
  fone := S754_finite false 8388608 (-23);
  fadd := SFadd 24 128;
  fsub := SFsub 24 128;
  fmul := SFmul 24 128;
  fdiv := SFdiv 24 128;
  fneg := SFopp;
  fmax := f32_max;
  fle := λ a b, SFleb a b = true;
  of_Z := λ z, binary_normalize 24 128 z 0 false;
|}.

(** The finite binary32 numbers: the zeros and the numbers whose mantissa
    and exponent are within the format. *)
Global Instance F32_finite : Finite spec_float := {|
  finite := λ a,
    match a with
    | S754_zero _ => True
    | S754_finite _ m e => bounded 24 128 m e = true
    | _ => False
    end;
|}.

Module Scenario.

(** One query [CLS 7 SEP] and eight documents [CLS t SEP]; only the
    document of index 3 contains the query token 7. *)
Definition qry_ids : tensor Z := Tensor [1; 3] [101; 7; 102]%Z.
Definition qry_mask : tensor Z := Tensor [1; 3] [1; 1; 1]%Z.
Definition doc_ids : tensor Z :=
  Tensor [8; 3]
    [101; 50; 102;  101; 51; 102;  101; 52; 102;  101; 7; 102;
     101; 54; 102;  101; 55; 102;  101; 56; 102;  101; 57; 102]%Z.
Definition doc_mask : tensor Z := Tensor [8; 3] (replicate 24 1%Z).
Definition type_ids (n : nat) : tensor Z := Tensor [n; 3] (replicate (n * 3) 0%Z).

Definition example_heap : heap :=
  {[ 0 := qry_ids; 1 := qry_mask; 2 := type_ids 1;
     3 := doc_ids; 4 := doc_mask; 5 := type_ids 8 ]}.

Definition qry_in : features :=
  {[ "input_ids" := 0; "attention_mask" := 1; "token_type_ids" := 2 ]}.
Definition doc_in : features :=
  {[ "input_ids" := 3; "attention_mask" := 4; "token_type_ids" := 5 ]}.

(** A model whose backbone gives every position the hidden state 1, whose
    projection is the identity, and whose cross-entropy reports the label
    it is given for the only query. *)
Definition probe_model : TILDEv2 Q := {|
  bert := λ feats,
    ids ← feats !! "input_ids";
    Some (Tensor (shape ids ++ [1]) (replicate (length (data ids)) 1%Q));
  tok_proj := Some;
  cross_entropy := λ _ labels,
    match data labels with
    | [l] => Some (inject_Z l)
    | _ => None
    end;
  train_group_size := 8;
|}.

Definition doc_reps : tensor Q := Tensor [8; 3; 1] (replicate 24 1%Q).
Definition qry_reps : tensor Q := Tensor [1; 3; 1] [1; 1; 1]%Q.

(** The mask of the query once [mask_sep] has run. *)
Definition qry_mask_sep : tensor Z := Tensor [1; 3] [1; 1; 0]%Z.

(** The scores of the eight documents. *)
Definition scores : tensor Q := Tensor [1; 8] [0; 0; 0; 1; 0; 0; 0; 0]%Q.

(** A row with no attended position. *)
Definition empty_row_mask : tensor Z := Tensor [1; 3] [0; 0; 0]%Z.

(** A Model A batch of one example per side over a vocabulary of two
    entries, and a backbone that returns all-zero logits. *)
Definition zero_logits : tensor R := Tensor [1; 1; 2] [0; 0]%R.
Definition ids2 : tensor Z := Tensor [1; 1] [101%Z].
Definition batch : Batch := {|
  passage_input_ids := ids2;
  passage_token_type_ids := ids2;
  passage_attention_mask := ids2;
  yqs := Tensor [1; 2] [1; 0]%Z;
  neg_yqs := Tensor [1; 2] [0; 1]%Z;
  query_input_ids := ids2;
  query_token_type_ids := ids2;
  query_ttention_mask := ids2;
  yds := Tensor [1; 2] [1; 1]%Z;
  neg_yds := Tensor [1; 2] [0; 0]%Z;
|}.
Definition lm (_ _ _ : tensor Z) : option (tensor R) := Some zero_logits.
Definition tok : Tokenizer := {| vocab_size := 5 |}.
Definition stop_ids (_ : Tokenizer) : gset Z := {[ 3%Z; 4%Z ]}.

(** The weights of the sample as binary32 floats; weights equal to
    2^100, finite but with a product above the largest binary32 number;
    and an infinite document weight. *)
Definition doc_reps32 : tensor spec_float := Tensor [8; 3; 1] (replicate 24 fone).
Definition qry_reps32 : tensor spec_float := Tensor [1; 3; 1] [fone; fone; fone].
Definition two_pow_100 : spec_float := S754_finite false 8388608 77.
Definition huge_doc_reps32 : tensor spec_float :=
  Tensor [8; 3; 1] (replicate 24 two_pow_100).
Definition huge_qry_reps32 : tensor spec_float :=
  Tensor [1; 3; 1] [fone; two_pow_100; fone].
Definition inf_doc_reps32 : tensor spec_float :=
  Tensor [8; 3; 1] (replicate 24 (S754_infinity false)).

(** A file system on which no call raises, and one that refuses to
    write the model weights. *)
Definition quiet_fs : FileSystem := {| fails := λ _, false |}.
Definition full_disk_fs : FileSystem := {|
  fails := λ call,
    match call with
    | ModelSavePretrained _ => true
    | _ => false
    end;
|}.

(** A trainer on a worker that is not the designated one. *)
Definition worker_trainer : @TILDEv2Trainer unit unit unit unit := {|
  args := {| output_dir := "out"; train_batch_size := 8; dataloader_num_workers := 0 |};
  model := tt;
  has_tokenizer := true;
  is_world_process_zero := false;
  train_dataset := None;
  data_collator := tt;
  _get_train_sampler := tt;
|}.

(** A trainer on the designated worker, with no tokenizer. *)
Definition bare_trainer : @TILDEv2Trainer unit unit unit unit := {|
  args := {| output_dir := "out"; train_batch_size := 8; dataloader_num_workers := 0 |};
  model := tt;
  has_tokenizer := false;
  is_world_process_zero := true;
  train_dataset := None;
  data_collator := tt;
  _get_train_sampler := tt;
|}.

End Scenario.

(** ** Further parts of [modeling.py] *)

(** Zero absorbs products and is neutral for the sums and maxima of the
    score (as on the finite floats, up to the sign of zero). *)
Class ZeroLaws (F : Type) `{Scalar F} : Prop := {
  fmul_zero_r : ∀ a : F, fmul a fzero = fzero;
  fmul_zero_l : ∀ a : F, fmul fzero a = fzero;
  fadd_zero_zero : fadd fzero fzero = fzero;
  fmax_zero_zero : fmax fzero fzero = fzero;
  of_Z_zero' : of_Z 0 = fzero;
}.

(** The rectifier returns a non-negative value. *)
Class ReluLaw (F : Type) `{Scalar F} : Prop := {
  nonneg_relu : ∀ a : F, fle fzero (fmax a fzero);
}.

Section ScoreCell.
Context `{Scalar F}.

(** The contribution of query position [lq] of query [q] to the score of
    document [d]: the largest gated product over the [LD] positions of the
    document, times the mask of the position. *)
Definition position_score (LD : nat) (doc_reps : tensor F) (doc_input_ids : tensor Z)
    (qry_reps : tensor F) (qry_input_ids qry_attention_mask : tensor Z)
    (q d lq : nat) : F :=
  fmul
    (fmax_list
       ((λ ld,
           fmul (fadd fzero (fmul (tget qry_reps [q; lq; 0]) (tget doc_reps [d; ld; 0])))
                (if (tget doc_input_ids [d; ld] =? tget qry_input_ids [q; lq])%Z
                 then fone else fzero))
          <$> seq 0 LD))
    (of_Z (tget qry_attention_mask [q; lq])).

End ScoreCell.

Section TILDEScore.
Context `{Scalar F}.

(** [TILDE.forward] (lines 27-33). *)
Definition TILDE_forward (self : TILDE F) (x : tensor Z * tensor Z * tensor Z)
    : option (tensor F) :=
  let '(input_ids, token_type_ids, attention_mask) := x in
  logits ← bert_lm self input_ids token_type_ids attention_mask;
  select1 logits 0.

End TILDEScore.

(** *** [TILDEv2Trainer._prepare_inputs] *)

(** A value of a batch dictionary: a tensor on some device, or anything
    else. *)
Inductive pyvalue :=
  | PyTensorOn (device : string) (t : tensor Z)
  | PyOther (repr : string).

(** The inner loop (lines 197-199): the tensors of [v], moved to
    [device]; what is not a tensor is left out. *)
Definition prepare_entry (device : string) (sk : string) (sv : pyvalue)
    (prepared_k : gmap string pyvalue) : gmap string pyvalue :=
  match sv with
  | PyTensorOn _ t => <[sk := PyTensorOn device t]> prepared_k
  | PyOther _ => prepared_k
  end.

(** [_prepare_inputs] (lines 193-201), for the device of [self.args]. *)
Definition _prepare_inputs (device : string)
    (inputs : gmap string (gmap string pyvalue))
    : gmap string (gmap string pyvalue) :=
  map_fold
    (λ k v prepared, <[k := map_fold (prepare_entry device) ∅ v]> prepared)
    ∅ inputs.

(** Row [i] of the mask [m] attends its first [s] positions and no
    other: the mask of a sequence of [s] tokens padded to [LQ]. *)
Definition attends_prefix (m : tensor Z) (LQ i s : nat) : Prop :=
  ∀ j, j < LQ → tget m [i; j] = if j <? s then 1%Z else 0%Z.

(** What [_prepare_inputs] makes of one value: a tensor moves to the
    device, anything else has no image. *)
Definition to_device (device : string) (sv : pyvalue) : option pyvalue :=
  match sv with
  | PyTensorOn _ t => Some (PyTensorOn device t)
  | PyOther _ => None
  end.


(** *** More sample data *)

Module Samples.

(** A second query that differs from [Scenario.qry_ids] at its first
    position only, in token, weight and mask. *)
Definition qry_ids' : tensor Z := Tensor [1; 3] [999; 7; 102]%Z.
Definition qry_reps' : tensor Q := Tensor [1; 3; 1] [5; 1; 1]%Q.
Definition qry_mask' : tensor Z := Tensor [1; 3] [0; 1; 0]%Z.

(** Real-valued weights for the query and the eight documents. *)
Definition doc_reps_R : tensor R := Tensor [8; 3; 1] (replicate 24 1%R).
Definition qry_reps_R : tensor R := Tensor [1; 3; 1] [1; 1; 1]%R.

(** Eight documents without any position. *)
Definition no_doc_reps : tensor Q := Tensor [8; 0; 1] [].
Definition no_doc_ids : tensor Z := Tensor [8; 0] [].

(** A batch whose query-side labels have no row. *)
Definition short_batch : Batch := {|
  passage_input_ids := Scenario.ids2;
  passage_token_type_ids := Scenario.ids2;
  passage_attention_mask := Scenario.ids2;
  yqs := Tensor [1; 2] [1; 0]%Z;
  neg_yqs := Tensor [1; 2] [0; 1]%Z;
  query_input_ids := Scenario.ids2;
  query_token_type_ids := Scenario.ids2;
  query_ttention_mask := Scenario.ids2;
  yds := Tensor [0; 2] [];
  neg_yds := Tensor [0; 2] [];
|}.

(** The probe model of the scenario on binary32 floats: every position
    gets the hidden state 1, the projection is the identity, and the
    cross-entropy reports the label of the only query. *)
Definition probe_model32 : TILDEv2 spec_float := {|
  bert := λ feats,
    ids ← feats !! "input_ids";
    Some (Tensor (shape ids ++ [1]) (replicate (length (data ids)) fone));
  tok_proj := Some;
  cross_entropy := λ _ labels,
    match data labels with
    | [l] => Some (of_Z l)
    | _ => None
    end;
  train_group_size := 8;
|}.

(** The scores of the eight documents, as binary32 floats. *)
Definition scores32 : tensor spec_float :=
  Tensor [1; 8] [fzero; fzero; fzero; fone; fzero; fzero; fzero; fzero].

(** The query features without their token type ids, and a heap that
    holds one more tensor. *)
Definition qry_in_two_keys : features := delete "token_type_ids" Scenario.qry_in.
Definition larger_heap : heap := <[7 := Scenario.empty_row_mask]> Scenario.example_heap.

End Samples.
(** * Properties *)

(** ** Index arithmetic *)

Lemma numel_cons s sh : numel (s :: sh) = s * numel sh.
Proof. reflexivity. Qed.

Lemma ravel_lt sh idx : in_bounds sh idx → ravel sh idx < numel sh.
Proof.
  unfold in_bounds. intros Hb. induction Hb as [|i s idx sh Hi _ IH]; simpl.
  - lia.
  - change (foldr Nat.mul 1 sh) with (numel sh). nia.
Qed.

Lemma unravel_ravel sh idx : in_bounds sh idx → unravel sh (ravel sh idx) = idx.
Proof.
  unfold in_bounds. intros Hb. induction Hb as [|i s idx sh Hi Hb IH]; simpl.
  - reflexivity.
  - pose proof (ravel_lt sh idx Hb) as Hr.
    assert (Hq : (i * numel sh + ravel sh idx) / numel sh = i).
    { symmetry. apply (Nat.div_unique _ _ _ (ravel sh idx)); lia. }
    assert (Hm : (i * numel sh + ravel sh idx) mod numel sh = ravel sh idx).
    { symmetry. apply (Nat.mod_unique _ _ i); lia. }
    rewrite Hq, Hm, IH. reflexivity.
Qed.

Lemma unravel_in_bounds sh n : n < numel sh → in_bounds sh (unravel sh n).
Proof.
  unfold in_bounds. revert n. induction sh as [|s sh IH]; intros n Hn; simpl.
  - constructor.
  - rewrite numel_cons in Hn.
    assert (Hpos : numel sh ≠ 0) by (intros E; rewrite E in Hn; lia).
    constructor.
    + apply Nat.Div0.div_lt_upper_bound. lia.
    + apply IH. apply Nat.mod_upper_bound. exact Hpos.
Qed.

Lemma ravel_unravel sh n : n < numel sh → ravel sh (unravel sh n) = n.
Proof.
  revert n. induction sh as [|s sh IH]; intros n Hn; simpl.
  - simpl in Hn. lia.
  - rewrite numel_cons in Hn.
    assert (Hpos : numel sh ≠ 0) by (intros E; rewrite E in Hn; lia).
    rewrite IH by (apply Nat.mod_upper_bound; exact Hpos).
    pose proof (Nat.div_mod_eq n (numel sh)). lia.
Qed.

Lemma in_bounds_length sh idx : in_bounds sh idx → length idx = length sh.
Proof. apply Forall2_length. Qed.

Lemma length_indices sh : length (indices sh) = numel sh.
Proof. unfold indices. rewrite length_fmap, length_seq. reflexivity. Qed.

Lemma indices_lookup sh idx :
  in_bounds sh idx → indices sh !! ravel sh idx = Some idx.
Proof.
  intros Hb. unfold indices. rewrite list_lookup_fmap.
  rewrite lookup_seq_lt by (apply ravel_lt; exact Hb).
  simpl. rewrite unravel_ravel by exact Hb. reflexivity.
Qed.

Lemma elem_of_indices sh idx : idx ∈ indices sh ↔ in_bounds sh idx.
Proof.
  split.
  - unfold indices. intros Hin. apply list_elem_of_fmap in Hin as (n & -> & Hn).
    apply elem_of_seq in Hn. apply unravel_in_bounds. lia.
  - intros Hb. apply list_elem_of_lookup. exists (ravel sh idx).
    apply indices_lookup. exact Hb.
Qed.

(** ** Reading what [tinit] wrote *)

Lemma shape_tinit {A} sh (f : list nat → A) : shape (tinit sh f) = sh.
Proof. reflexivity. Qed.

Lemma wf_tinit {A} sh (f : list nat → A) : wf (tinit sh f).
Proof. unfold wf, tinit. simpl. rewrite length_fmap. apply length_indices. Qed.

Lemma tget_tinit `{Inhabited A} sh (f : list nat → A) idx :
  in_bounds sh idx → tget (tinit sh f) idx = f idx.
Proof.
  intros Hb. unfold tget, tinit. simpl.
  rewrite list_lookup_fmap, indices_lookup by exact Hb. reflexivity.
Qed.

Lemma Forall_tinit {A} (P : A → Prop) sh (f : list nat → A) :
  (∀ idx, in_bounds sh idx → P (f idx)) → Forall P (data (tinit sh f)).
Proof.
  intros Hf. unfold tinit. simpl. apply Forall_fmap, Forall_forall.
  intros idx Hin. apply Hf, elem_of_indices, Hin.
Qed.

Lemma tget_Forall `{Inhabited A} (P : A → Prop) (t : tensor A) idx :
  Forall P (data t) → P inhabitant → P (tget t idx).
Proof.
  intros Hall Hd. unfold tget.
  destruct (data t !! ravel (shape t) idx) as [x|] eqn:E; simpl.
  - eapply Forall_lookup_1; eauto.
  - exact Hd.
Qed.
Lemma tget_tmap `{Inhabited A, Inhabited B} (g : A → B) (t : tensor A) idx :
  wf t → in_bounds (shape t) idx → tget (tmap g t) idx = g (tget t idx).
Proof.
  intros Hwf Hb. unfold tget, tmap. simpl. rewrite list_lookup_fmap.
  destruct (data t !! ravel (shape t) idx) as [x|] eqn:E; [reflexivity|].
  apply lookup_ge_None in E. apply ravel_lt in Hb. unfold wf in Hwf. lia.
Qed.

Lemma wf_tmap {A B} (g : A → B) (t : tensor A) : wf t → wf (tmap g t).
Proof. unfold wf, tmap. simpl. rewrite length_fmap. auto. Qed.

(** *** Broadcasting of dimensions *)

Lemma bdim_1_r x : bdim x 1 = Some x.
Proof. unfold bdim. destruct (x =? 1) eqn:E; [apply Nat.eqb_eq in E; subst|]; reflexivity. Qed.

Lemma bdim_diag x : bdim x x = Some x.
Proof.
  unfold bdim. destruct (x =? 1) eqn:E; [reflexivity|].
  rewrite Nat.eqb_refl. reflexivity.
Qed.

Lemma bsel_lt s i : i < s → bsel s i = i.
Proof. unfold bsel. destruct (s =? 1) eqn:E; [apply Nat.eqb_eq in E; lia|reflexivity]. Qed.

Lemma in_bounds_cons s sh i idx :
  in_bounds (s :: sh) (i :: idx) ↔ i < s ∧ in_bounds sh idx.
Proof. unfold in_bounds. apply Forall2_cons. Qed.

Lemma in_bounds_nil : in_bounds [] [].
Proof. constructor. Qed.

(** Multi-indices of a given rank, taken apart. *)
Lemma in_bounds_inv2 a b idx :
  in_bounds [a; b] idx → ∃ i j, idx = [i; j] ∧ i < a ∧ j < b.
Proof.
  unfold in_bounds. intros Hb.
  apply Forall2_cons_inv_r in Hb as (i & r1 & Hi & Hb & ->).
  apply Forall2_cons_inv_r in Hb as (j & r2 & Hj & Hb & ->).
  apply Forall2_nil_inv_r in Hb as ->. eauto.
Qed.

Lemma in_bounds_inv3 a b c idx :
  in_bounds [a; b; c] idx → ∃ i j k, idx = [i; j; k] ∧ i < a ∧ j < b ∧ k < c.
Proof.
  unfold in_bounds. intros Hb.
  apply Forall2_cons_inv_r in Hb as (i & r1 & Hi & Hb & ->).
  apply in_bounds_inv2 in Hb as (j & k & -> & Hj & Hk). eauto 10.
Qed.

Lemma in_bounds_inv4 a b c d idx :
  in_bounds [a; b; c; d] idx →
  ∃ i j k l, idx = [i; j; k; l] ∧ i < a ∧ j < b ∧ k < c ∧ l < d.
Proof.
  unfold in_bounds. intros Hb.
  apply Forall2_cons_inv_r in Hb as (i & r1 & Hi & Hb & ->).
  apply in_bounds_inv3 in Hb as (j & k & l & -> & Hj & Hk & Hl). eauto 10.
Qed.

Ltac in_bounds_tac :=
  repeat (apply in_bounds_cons; split; [lia|]); apply in_bounds_nil.

(** ** Model B: the exact-match gate *)

Section Gate.
Context `{Scalar F}.

Lemma exact_match_gate_eq Q LQ D LD dd qd :
  exact_match_gate (Tensor [D; LD] dd) (Tensor [Q; LQ] qd) =
  Some (to_float (tinit [Q; LQ; D; LD]
          (λ idx, Z.eqb (tget (Tensor [1; 1; D; LD] dd) (bidx 4 [1; 1; D; LD] idx))
                        (tget (Tensor [Q; LQ; 1; 1] qd) (bidx 4 [Q; LQ; 1; 1] idx))))).
Proof.
  unfold exact_match_gate, unsqueeze, teq, broadcast2, broadcast_shape. cbn.
  rewrite !bdim_1_r. cbn. reflexivity.
Qed.

Lemma gate_operands Q LQ D LD (dd qd : list Z) q lq d ld :
  q < Q → lq < LQ → d < D → ld < LD →
  tget (Tensor [1; 1; D; LD] dd) (bidx 4 [1; 1; D; LD] [q; lq; d; ld])
    = tget (Tensor [D; LD] dd) [d; ld]
  ∧ tget (Tensor [Q; LQ; 1; 1] qd) (bidx 4 [Q; LQ; 1; 1] [q; lq; d; ld])
    = tget (Tensor [Q; LQ] qd) [q; lq].
Proof.
  intros Hq Hlq Hd Hld. unfold bidx, pad_rank, tget. cbn.
  rewrite !bsel_lt by assumption.
  split; do 2 f_equal; lia.
Qed.

End Gate.
(** ** Properties of the elements kept by the tensor operations *)

Section Preservation.
Context `{Inhabited A}.

Lemma fibre_Forall (P : A → Prop) k (t : tensor A) n idx :
  Forall P (data t) → P inhabitant → Forall P (fibre k t n idx).
Proof.
  intros Ht Hd. unfold fibre. apply Forall_fmap, Forall_forall.
  intros l _. simpl. apply tget_Forall; assumption.
Qed.

End Preservation.

(** ** Non-negative floats *)

Section NonNeg.
Context `{SignLaws F}.

Lemma nonneg_zero : nonneg (fzero : F).
Proof. exact (proj1 fin_nonneg_zero). Qed.

Lemma nonneg_inhabitant : nonneg (inhabitant : F).
Proof. apply nonneg_zero. Qed.

Lemma fin_nonneg_inhabitant : fin_nonneg (inhabitant : F).
Proof. apply fin_nonneg_zero. Qed.

Lemma nonneg_foldl_add (l : list F) a :
  nonneg a → Forall nonneg l → nonneg (foldl fadd a l).
Proof.
  revert a. induction l as [|x l IH]; intros a Ha Hl; simpl; [exact Ha|].
  inversion Hl; subst. apply IH; [apply nonneg_add|]; assumption.
Qed.

Lemma nonneg_tsum (l : list F) : Forall nonneg l → nonneg (tsum l).
Proof. apply nonneg_foldl_add, nonneg_zero. Qed.

Lemma fin_nonneg_foldl_max (l : list F) a :
  fin_nonneg a → Forall fin_nonneg l → fin_nonneg (foldl fmax a l).
Proof.
  revert a. induction l as [|x l IH]; intros a Ha Hl; simpl; [exact Ha|].
  inversion Hl; subst. apply IH; [apply fin_nonneg_max|]; assumption.
Qed.

Lemma fin_nonneg_fmax_list (l : list F) :
  Forall fin_nonneg l → fin_nonneg (fmax_list l).
Proof.
  destruct l as [|x l]; intros Hl; simpl; [apply fin_nonneg_zero|].
  inversion Hl; subst. apply fin_nonneg_foldl_max; assumption.
Qed.

(** A finite non-negative value stays so behind a gate that is 1 or 0. *)
Lemma fin_nonneg_gate (a g : F) :
  fin_nonneg a → g = fone ∨ g = fzero → fin_nonneg (fmul a g).
Proof.
  intros Ha [-> | ->]; [apply fin_nonneg_mul_one_r|apply fin_nonneg_mul_zero_r];
    exact Ha.
Qed.

Lemma fin_nonneg_of_mask (a : F) (z : Z) :
  fin_nonneg a → z = 0%Z ∨ z = 1%Z → fin_nonneg (fmul a (of_Z z)).
Proof.
  intros Ha [-> | ->]; [rewrite of_Z_0|rewrite of_Z_1]; apply fin_nonneg_gate; auto.
Qed.

(** A product of non-negative weights that did not overflow, as the
    matrix product accumulates it. *)
Lemma fin_nonneg_product (x y : F) :
  nonneg x → nonneg y → finite (fmul x y) → fin_nonneg (fadd fzero (fmul x y)).
Proof.
  intros Hx Hy Hf. apply fin_nonneg_add_zero. split; [|exact Hf].
  apply nonneg_mul; assumption.
Qed.

End NonNeg.
(** ** Model B: the score matrix *)

Lemma broadcast_shape_diag4 a b c d :
  broadcast_shape [a; b; c; d] [a; b; c; d] = Some [a; b; c; d].
Proof. unfold broadcast_shape. cbn. rewrite !bdim_diag. reflexivity. Qed.

Lemma broadcast_shape_mask a b c :
  broadcast_shape [a; b; c] [a; b; 1] = Some [a; b; c].
Proof. unfold broadcast_shape. cbn. rewrite !bdim_diag, bdim_1_r. reflexivity. Qed.

(** ** What the tensor operations compute, element by element *)

Section Elements.
Context {A B E : Type} `{!Inhabited A, !Inhabited B, !Inhabited E}.

Lemma broadcast2_get (f : A → B → E) (a : tensor A) (b : tensor B) sh :
  broadcast_shape (shape a) (shape b) = Some sh →
  ∃ c, broadcast2 f a b = Some c ∧ shape c = sh ∧ wf c
    ∧ ∀ idx, in_bounds sh idx →
        tget c idx = f (tget a (bidx (length sh) (shape a) idx))
                       (tget b (bidx (length sh) (shape b) idx)).
Proof.
  intros Hsh. unfold broadcast2. rewrite Hsh. simpl.
  eexists. split; [reflexivity|]. split; [reflexivity|].
  split; [apply wf_tinit|].
  intros idx Hb. rewrite tget_tinit by exact Hb. reflexivity.
Qed.

Lemma reduce_dim_get k (g : list A → E) (t : tensor A) n :
  shape t !! k = Some n →
  ∃ c, reduce_dim k g t = Some c ∧ shape c = remove_at k (shape t) ∧ wf c
    ∧ ∀ idx, in_bounds (remove_at k (shape t)) idx →
        tget c idx = g (fibre k t n idx).
Proof.
  intros Hn. unfold reduce_dim. rewrite Hn. simpl.
  eexists. split; [reflexivity|]. split; [reflexivity|].
  split; [apply wf_tinit|].
  intros idx Hb. rewrite tget_tinit by exact Hb. reflexivity.
Qed.

Lemma slice_from_get k start (t : tensor A) n :
  shape t !! k = Some n →
  ∃ c, slice_from k start t = Some c
    ∧ shape c = <[k := n - start]> (shape t) ∧ wf c
    ∧ ∀ idx, in_bounds (<[k := n - start]> (shape t)) idx →
        tget c idx = tget t (alter (λ i, i + start) k idx).
Proof.
  intros Hn. unfold slice_from. rewrite Hn. simpl.
  eexists. split; [reflexivity|]. split; [reflexivity|].
  split; [apply wf_tinit|].
  intros idx Hb. rewrite tget_tinit by exact Hb. reflexivity.
Qed.

End Elements.

Section CellFormula.
Context `{Scalar F}.

(** The raw products, seen as a tensor over (query, query position,
    document, document position). *)
Lemma scores_no_masking_get Q LQ D LD (dr qr : list F) :
  ∃ dt sm,
    transpose01 (view_m1_1 (Tensor [D; LD; 1] dr)) = Some dt
    ∧ matmul (view_m1_1 (Tensor [Q; LQ; 1] qr)) dt = Some sm
    ∧ shape sm = [numel [Q; LQ; 1]; numel [D; LD; 1]]
    ∧ ∀ q lq d ld, q < Q → lq < LQ → d < D → ld < LD →
        tget (Tensor [Q; LQ; D; LD] (data sm)) [q; lq; d; ld]
        = fadd fzero (fmul (tget (Tensor [Q; LQ; 1] qr) [q; lq; 0])
                           (tget (Tensor [D; LD; 1] dr) [d; ld; 0])).
Proof.
  eexists _, _. split; [reflexivity|]. split; [reflexivity|].
  split; [reflexivity|].
  intros q lq d ld Hq Hlq Hd Hld.
  set (sm := tinit _ _).
  transitivity (tget sm [q * LQ + lq; d * LD + ld]).
  { unfold tget. cbn [shape data ravel sm tinit]. do 2 f_equal. cbn. nia. }
  unfold sm. rewrite tget_tinit.
  2:{ cbn. apply in_bounds_cons. split; [nia|].
      apply in_bounds_cons. split; [nia|]. apply in_bounds_nil. }
  cbn [seq fmap list_fmap tsum foldl]. f_equal. f_equal.
  - unfold tget. cbn [shape data view_m1_1 ravel]. do 2 f_equal. cbn. nia.
  - rewrite tget_tinit.
    2:{ cbn. apply in_bounds_cons. split; [lia|].
        apply in_bounds_cons. split; [nia|]. apply in_bounds_nil. }
    unfold tget. cbn [shape data view_m1_1 ravel]. do 2 f_equal. cbn. nia.
Qed.

End CellFormula.
Section CellFormula2.
Context `{Scalar F}.

Lemma shape_to_float (t : tensor bool) : shape (to_float (F := F) t) = shape t.
Proof. reflexivity. Qed.

Lemma gate_get Q LQ D LD (dd qd : list Z) q lq d ld :
  q < Q → lq < LQ → d < D → ld < LD →
  tget (to_float (tinit [Q; LQ; D; LD]
          (λ idx, Z.eqb (tget (Tensor [1; 1; D; LD] dd) (bidx 4 [1; 1; D; LD] idx))
                        (tget (Tensor [Q; LQ; 1; 1] qd) (bidx 4 [Q; LQ; 1; 1] idx)))))
       [q; lq; d; ld]
  = if (tget (Tensor [D; LD] dd) [d; ld] =? tget (Tensor [Q; LQ] qd) [q; lq])%Z
    then (fone : F) else fzero.
Proof.
  intros Hq Hlq Hd Hld.
  unfold to_float. rewrite tget_tmap; [|apply wf_tinit|simpl; in_bounds_tac].
  rewrite tget_tinit by in_bounds_tac.
  destruct (gate_operands Q LQ D LD dd qd q lq d ld Hq Hlq Hd Hld) as [-> ->].
  reflexivity.
Qed.

Lemma bidx_id4 a b c d q lq i l :
  q < a → lq < b → i < c → l < d →
  bidx 4 [a; b; c; d] [q; lq; i; l] = [q; lq; i; l].
Proof.
  intros. unfold bidx, pad_rank. cbn. rewrite !bsel_lt by assumption. reflexivity.
Qed.

Lemma bidx_id3 a b c q lq i :
  q < a → lq < b → i < c → bidx 3 [a; b; c] [q; lq; i] = [q; lq; i].
Proof.
  intros. unfold bidx, pad_rank. cbn. rewrite !bsel_lt by assumption. reflexivity.
Qed.

Lemma bidx_mask a b q lq i :
  q < a → lq < b → bidx 3 [a; b; 1] [q; lq; i] = [q; lq; 0].
Proof.
  intros. unfold bidx, pad_rank. cbn. rewrite !bsel_lt by assumption. reflexivity.
Qed.

(** Every cell of the score matrix: the sum, over the query positions
    after the first, of their [position_score]. *)
Lemma tok_scores_cell Q LQ D LD dr dd qr qd md :
  0 < LD →
  ∃ out,
    compute_tok_score_cart (Tensor [D; LD; 1] dr) (Tensor [D; LD] dd)
      (Tensor [Q; LQ; 1] qr) (Tensor [Q; LQ] qd) (Tensor [Q; LQ] md) = Some out
    ∧ shape out = [Q; D] ∧ wf out
    ∧ ∀ q d, q < Q → d < D →
        tget out [q; d] =
          tsum ((λ l, position_score LD (Tensor [D; LD; 1] dr) (Tensor [D; LD] dd)
                        (Tensor [Q; LQ; 1] qr) (Tensor [Q; LQ] qd) (Tensor [Q; LQ] md)
                        q d (S l)) <$> seq 0 (LQ - 1)).
Proof.
  intros HLD. unfold compute_tok_score_cart.
  rewrite exact_match_gate_eq. cbn [mbind option_bind].
  destruct (scores_no_masking_get Q LQ D LD dr qr)
    as (dt & sm & -> & Hsm & Hsms & Gsm).
  cbn [mbind option_bind]. rewrite Hsm. cbn [mbind option_bind].
  unfold view. cbn [shape data]. rewrite Hsms.
  assert (Hnum : numel (take 2 [Q; LQ; 1] ++ take 2 [D; LD; 1])
                 = numel [numel [Q; LQ; 1]; numel [D; LD; 1]]) by (cbn; lia).
  rewrite (proj2 (Nat.eqb_eq _ _) Hnum). cbn [mbind option_bind take app].
  destruct (broadcast2_get fmul (Tensor [Q; LQ; D; LD] (data sm))
              (to_float (tinit [Q; LQ; D; LD]
                 (λ idx, Z.eqb
                    (tget (Tensor [1; 1; D; LD] dd) (bidx 4 [1; 1; D; LD] idx))
                    (tget (Tensor [Q; LQ; 1; 1] qd) (bidx 4 [Q; LQ; 1; 1] idx)))))
              _ (broadcast_shape_diag4 Q LQ D LD))
    as (gated & Hg & Hgs & _ & Gg).
  unfold tmul. rewrite Hg. cbn [mbind option_bind].
  unfold tmax_dim. rewrite Hgs. cbn [lookup list_lookup mbind option_bind].
  destruct (LD =? 0) eqn:E; [apply Nat.eqb_eq in E; lia|].
  destruct (reduce_dim_get 3 fmax_list gated LD) as (scores & -> & Hss & _ & Gs);
    [rewrite Hgs; reflexivity|]. cbn [mbind option_bind].
  rewrite Hgs in Hss, Gs. cbn in Hss. cbn [remove_at take drop app] in Gs.
  unfold unsqueeze. cbn [shape data length Nat.leb take drop app mbind option_bind].
  destruct (broadcast2_get (λ x z, fmul x (of_Z z)) scores
              (Tensor [Q; LQ; 1] md) [Q; LQ; D])
    as (masked & Hm & Hms & _ & Gm);
    [rewrite Hss; apply broadcast_shape_mask|].
  unfold tmul_long. rewrite Hm. cbn [mbind option_bind].
  destruct (slice_from_get 1 1 masked LQ) as (sliced & -> & Hsl & _ & Gsl);
    [rewrite Hms; reflexivity|]. cbn [mbind option_bind].
  rewrite Hms in Hsl, Gsl. cbn in Hsl. cbn [list_insert insert] in Gsl.
  destruct (reduce_dim_get 1 tsum sliced (LQ - 1)) as (out & Ho & Hos & Hwf & Go);
    [rewrite Hsl; reflexivity|].
  unfold tsum_dim. rewrite Ho. rewrite Hsl in Hos, Go. cbn in Hos.
  cbn [remove_at take drop app] in Go.
  exists out. split; [reflexivity|]. split; [exact Hos|]. split; [exact Hwf|].
  intros q d Hq Hd. rewrite Go by in_bounds_tac.
  unfold fibre. f_equal. apply list_fmap_ext. intros k l Hk.
  apply lookup_seq in Hk as [-> Hk]. cbn [Nat.add insert_at take drop app].
  rewrite Gsl by in_bounds_tac. cbn [alter list_alter]. rewrite (Nat.add_1_r k).
  rewrite Gm by in_bounds_tac.
  rewrite Hss. cbn [shape length].
  rewrite bidx_id3, bidx_mask by lia.
  rewrite Gs by in_bounds_tac.
  unfold position_score. f_equal.
  f_equal. unfold fibre. apply list_fmap_ext. intros k' ld Hk'.
  apply lookup_seq in Hk' as [-> Hk']. cbn [Nat.add insert_at take drop app].
  rewrite Gg by in_bounds_tac.
  rewrite shape_to_float, shape_tinit.
  cbn [shape length]. rewrite !bidx_id4 by lia.
  rewrite Gsm by lia. rewrite gate_get by lia. reflexivity.
Qed.

End CellFormula2.
Section ScoreClaims.
Context `{SignLaws F}.

(** One query position contributes a non-negative value to the score of
    a document when the weights are non-negative, their products are
    finite and the mask of the position is 0 or 1. *)
Lemma position_score_nonneg (LD : nat) (doc_reps : tensor F)
    (doc_input_ids : tensor Z) (qry_reps : tensor F)
    (qry_input_ids qry_attention_mask : tensor Z) (q d lq : nat) :
  nonneg (tget qry_reps [q; lq; 0]) →
  (∀ ld, ld < LD → nonneg (tget doc_reps [d; ld; 0])) →
  (∀ ld, ld < LD →
     finite (fmul (tget qry_reps [q; lq; 0]) (tget doc_reps [d; ld; 0]))) →
  (tget qry_attention_mask [q; lq] = 0 ∨ tget qry_attention_mask [q; lq] = 1)%Z →
  nonneg (position_score LD doc_reps doc_input_ids qry_reps qry_input_ids
            qry_attention_mask q d lq).
Proof.
  intros Hq Hd Hfin Hm. unfold position_score.
  apply fin_nonneg_of_mask; [|exact Hm].
  apply fin_nonneg_fmax_list, Forall_fmap, Forall_forall. intros ld Hld.
  apply elem_of_seq in Hld. cbn.
  apply fin_nonneg_gate.
  - apply fin_nonneg_product; [exact Hq|apply Hd; lia|apply Hfin; lia].
  - destruct (_ =? _)%Z; auto.
Qed.

(** C4 (amended).  On query and document inputs of the batch contract
    (ids and mask of shape queries x query length, weights with a trailing
    dimension of 1, documents with at least one position)
    [compute_tok_score_cart] returns a matrix of shape
    (number of queries, number of documents); when the token weights are
    non-negative, every product of a query weight and a document weight
    is finite (no infinite weight, no overflow) and the attention mask is
    0/1, every cell is >= 0. *)
Theorem compute_tok_score_cart_shape_nonneg
    (Q LQ D LD : nat) (doc_reps : tensor F) (doc_input_ids : tensor Z)
    (qry_reps : tensor F) (qry_input_ids qry_attention_mask : tensor Z) :
  shape qry_input_ids = [Q; LQ] →
  shape doc_input_ids = [D; LD] →
  shape qry_reps = [Q; LQ; 1] →
  shape doc_reps = [D; LD; 1] →
  shape qry_attention_mask = [Q; LQ] →
  0 < LD →
  ∃ tok_scores,
    compute_tok_score_cart doc_reps doc_input_ids qry_reps qry_input_ids
      qry_attention_mask = Some tok_scores
    ∧ shape tok_scores = [Q; D]
    ∧ length (data tok_scores) = Q * D
    ∧ (Forall (fle fzero) (data doc_reps) →
       Forall (fle fzero) (data qry_reps) →
       (∀ q lq d ld, q < Q → lq < LQ → d < D → ld < LD →
          finite (fmul (tget qry_reps [q; lq; 0]) (tget doc_reps [d; ld; 0]))) →
       Forall (λ z, z = 0 ∨ z = 1)%Z (data qry_attention_mask) →
       ∀ q d, q < Q → d < D → fle fzero (tget tok_scores [q; d])).
Proof.
  destruct doc_reps as [s1 dr], doc_input_ids as [s2 dd], qry_reps as [s3 qr],
    qry_input_ids as [s4 qd], qry_attention_mask as [s5 md]. simpl.
  intros -> -> -> -> -> HLD.
  destruct (tok_scores_cell Q LQ D LD dr dd qr qd md HLD)
    as (out & Hout & Hsh & Hwf & Hget).
  exists out. split; [exact Hout|]. split; [exact Hsh|]. split.
  - unfold wf in Hwf. rewrite Hwf, Hsh. simpl. lia.
  - intros Hdr Hqr Hfin Hmd q d Hq Hd. rewrite (Hget q d Hq Hd).
    apply nonneg_tsum, Forall_fmap, Forall_forall. intros l Hl.
    apply elem_of_seq in Hl. cbn.
    apply position_score_nonneg.
    + apply (tget_Forall nonneg); [exact Hqr|apply nonneg_inhabitant].
    + intros ld _. apply (tget_Forall nonneg); [exact Hdr|apply nonneg_inhabitant].
    + intros ld Hld. apply Hfin; lia.
    + apply (tget_Forall (λ z, z = 0 ∨ z = 1)%Z); [exact Hmd|].
      right. reflexivity.
Qed.

End ScoreClaims.

Section GateClaims.
Context `{Scalar F}.

(** C5.  The exact-match gate built by [compute_tok_score_cart] has one
    entry per (query example, query position, document example, document
    position); the entry is exactly 1.0 when the query token id equals the
    document token id, and exactly 0.0 when they differ. *)
Theorem exact_match_gate_values
    (Q LQ D LD : nat) (doc_input_ids qry_input_ids : tensor Z) :
  shape qry_input_ids = [Q; LQ] →
  shape doc_input_ids = [D; LD] →
  ∃ exact_match,
    exact_match_gate doc_input_ids qry_input_ids = Some exact_match
    ∧ shape exact_match = [Q; LQ; D; LD]
    ∧ ∀ q lq d ld, q < Q → lq < LQ → d < D → ld < LD →
        (tget qry_input_ids [q; lq] = tget doc_input_ids [d; ld] →
           tget exact_match [q; lq; d; ld] = fone)
        ∧ (tget qry_input_ids [q; lq] ≠ tget doc_input_ids [d; ld] →
           tget exact_match [q; lq; d; ld] = fzero).
Proof.
  destruct doc_input_ids as [s1 dd], qry_input_ids as [s2 qd]. simpl.
  intros -> ->. rewrite exact_match_gate_eq.
  eexists. split; [reflexivity|]. split; [reflexivity|].
  intros q lq d ld Hq Hlq Hd Hld.
  unfold to_float. rewrite tget_tmap; [|apply wf_tinit|simpl; in_bounds_tac].
  rewrite tget_tinit by in_bounds_tac.
  destruct (gate_operands Q LQ D LD dd qd q lq d ld Hq Hlq Hd Hld) as [-> ->].
  split; intros Hc.
  - rewrite Hc, Z.eqb_refl. reflexivity.
  - destruct (Z.eqb_spec (tget (Tensor [D; LD] dd) [d; ld])
                (tget (Tensor [Q; LQ] qd) [q; lq])) as [E|E]; [congruence|reflexivity].
Qed.

End GateClaims.
(** ** Writing an element *)

Section Tset.
Context `{Inhabited A}.

Lemma ravel_inj sh idx idx' :
  in_bounds sh idx → in_bounds sh idx' → ravel sh idx = ravel sh idx' → idx = idx'.
Proof.
  intros Hb Hb' E. rewrite <- (unravel_ravel sh idx Hb), E.
  apply unravel_ravel, Hb'.
Qed.

Lemma wf_tset (t : tensor A) idx v : wf t → wf (tset t idx v).
Proof. unfold wf, tset. simpl. rewrite length_insert. auto. Qed.

Lemma tget_tset (t : tensor A) idx idx' v :
  wf t → in_bounds (shape t) idx → in_bounds (shape t) idx' →
  tget (tset t idx v) idx' = if decide (idx = idx') then v else tget t idx'.
Proof.
  intros Hwf Hb Hb'. unfold tget, tset. simpl.
  destruct (decide (idx = idx')) as [->|Hne].
  - rewrite list_lookup_insert_eq; [reflexivity|].
    apply ravel_lt in Hb'. unfold wf in Hwf. lia.
  - rewrite list_lookup_insert_ne; [reflexivity|].
    intros E. apply Hne. eapply ravel_inj; eauto.
Qed.

End Tset.

(** ** Model B: [mask_sep] *)

Lemma unravel_col Q n : unravel [Q; 1] n = [n; 0].
Proof.
  unfold unravel. change (numel [1]) with 1. change (numel []) with 1.
  rewrite Nat.div_1_r, Nat.mod_1_r. reflexivity.
Qed.

Lemma indices_col Q : indices [Q; 1] = (λ i, [i; 0]) <$> seq 0 Q.
Proof.
  unfold indices. replace (numel [Q; 1]) with Q by (cbn; lia).
  apply list_fmap_ext. intros _ n _. apply unravel_col.
Qed.

Section Scatter.
Variables (Q LQ : nat) (m index src : tensor Z).
Hypothesis Hm : shape m = [Q; LQ].
Hypothesis Hwf : wf m.

Let step := scatter_step 1 LQ index src.

Lemma scatter_step_None l : foldl step None l = None.
Proof. induction l as [|x l IH]; [reflexivity|exact IH]. Qed.

Lemma scatter_rows r :
  r ≤ Q →
  (∀ i, i < r → (0 ≤ tget index [i; 0%nat] < Z.of_nat LQ)%Z) →
  ∃ m', foldl step (Some m) ((λ i, [i; 0]) <$> seq 0 r) = Some m'
    ∧ shape m' = [Q; LQ] ∧ wf m'
    ∧ ∀ i j, i < Q → j < LQ →
        tget m' [i; j] =
          if decide (i < r ∧ Z.of_nat j = tget index [i; 0])
          then tget src [i; 0] else tget m [i; j].
Proof.
  induction r as [|r IH]; intros Hr Hin.
  - exists m. split; [reflexivity|]. split; [exact Hm|]. split; [exact Hwf|].
    intros i j _ _. rewrite decide_False by lia. reflexivity.
  - destruct IH as (m1 & Hfold & Hs1 & Hwf1 & Hget); [lia|intros; apply Hin; lia|].
    rewrite seq_S, fmap_app, foldl_app, Hfold. simpl.
    unfold step, scatter_step. simpl.
    pose proof (Hin r (Nat.lt_succ_diag_r r)) as Hv.
    destruct (Z.leb_spec 0 (tget index [r; 0])); [|lia].
    destruct (Z.ltb_spec (tget index [r; 0]) (Z.of_nat LQ)); [|lia].
    simpl. eexists. split; [reflexivity|]. split; [exact Hs1|].
    split; [apply wf_tset, Hwf1|].
    intros i j Hi Hj.
    rewrite tget_tset; [|exact Hwf1|rewrite Hs1; in_bounds_tac..].
    rewrite Hget by assumption.
    destruct (decide ([r; Z.to_nat (tget index [r; 0])] = [i; j])) as [E|E].
    + injection E as <- <-. rewrite decide_True by lia. reflexivity.
    + destruct (decide (i < r ∧ Z.of_nat j = tget index [i; 0])) as [[? ?]|Hn].
      * rewrite decide_True by lia. reflexivity.
      * rewrite decide_False; [reflexivity|].
        intros [Hlt Hj']. destruct (decide (i = r)) as [->|]; [|lia].
        apply E. f_equal. f_equal. lia.
Qed.

Lemma scatter_rows_None i :
  i < Q → ¬ (0 ≤ tget index [i; 0%nat] < Z.of_nat LQ)%Z →
  foldl step (Some m) ((λ i, [i; 0]) <$> seq 0 Q) = None.
Proof.
  intros Hi Hout.
  replace Q with (i + S (Q - S i)) by lia.
  rewrite seq_app, fmap_app, foldl_app. simpl.
  destruct (foldl step (Some m) ((λ i0, [i0; 0]) <$> seq 0 i)) as [acc|];
    [|apply scatter_step_None].
  replace (step (Some acc) [i; 0]) with (@None (tensor Z)); [apply scatter_step_None|].
  unfold step, scatter_step. simpl.
  destruct (Z.leb_spec 0 (tget index [i; 0])); [|reflexivity].
  destruct (Z.ltb_spec (tget index [i; 0]) (Z.of_nat LQ)); [lia|reflexivity].
Qed.

End Scatter.
Section MaskSep.
Variables (Q LQ : nat) (m : tensor Z).
Hypothesis Hm : shape m = [Q; LQ].

(** The tensor [sep_pos] of [mask_sep]. *)
Let sep_pos : tensor Z :=
  tmap (λ x, x - 1)%Z
    (Tensor [Q; 1] (data (tinit [Q] (λ idx, sumZ (fibre 1 m LQ idx))))).

Lemma mask_sep_unfold (h : heap) (ref : loc) :
  h !! ref = Some m →
  mask_sep ref h =
    m' ← foldl (scatter_step 1 LQ sep_pos (zeros_like sep_pos)) (Some m)
           ((λ i, [i; 0]) <$> seq 0 Q);
    Some (ref, <[ref := m']> h).
Proof.
  intros Href. unfold mask_sep. rewrite Href. cbn [mbind option_bind].
  unfold tsum_dimZ, reduce_dim. rewrite Hm. cbn [lookup list_lookup mbind option_bind].
  unfold unsqueeze. cbn [shape data tinit remove_at take drop app length Nat.leb
                           mbind option_bind].
  unfold scatter. rewrite Hm. cbn [lookup list_lookup mbind option_bind].
  rewrite decide_True.
  - cbn [shape tmap]. rewrite indices_col. reflexivity.
  - cbn. repeat split; repeat constructor.
Qed.

Lemma wf_row_sums :
  wf (Tensor [Q; 1] (data (tinit [Q] (λ idx, sumZ (fibre 1 m LQ idx))))).
Proof.
  unfold wf. cbn [data shape tinit].
  rewrite length_fmap, length_indices. cbn. lia.
Qed.

Lemma wf_sep_pos : wf sep_pos.
Proof. apply wf_tmap, wf_row_sums. Qed.

Lemma sep_pos_get i : i < Q → tget sep_pos [i; 0] = sep_index m i.
Proof.
  intros Hi. unfold sep_pos.
  rewrite tget_tmap; [|apply wf_row_sums|simpl; in_bounds_tac].
  unfold sep_index. f_equal.
  transitivity (tget (tinit [Q] (λ idx, sumZ (fibre 1 m LQ idx))) [i]).
  - unfold tget. cbn [shape data ravel]. do 2 f_equal; cbn; lia.
  - rewrite tget_tinit by in_bounds_tac. unfold mask_row. rewrite Hm. reflexivity.
Qed.

Lemma zeros_get i : i < Q → tget (zeros_like sep_pos) [i; 0] = 0%Z.
Proof.
  intros Hi. unfold zeros_like.
  rewrite tget_tmap; [reflexivity|apply wf_sep_pos|simpl; in_bounds_tac].
Qed.

End MaskSep.
(** *** Sums of 0/1 rows *)

Lemma foldl_Zadd (l : list Z) (a : Z) : foldl Z.add a l = (a + sumZ l)%Z.
Proof.
  unfold sumZ. revert a. induction l as [|x l IH]; intros a; simpl; [lia|].
  rewrite (IH (a + x)%Z), (IH (0 + x)%Z). lia.
Qed.

Lemma sumZ_cons x l : sumZ (x :: l) = (x + sumZ l)%Z.
Proof. unfold sumZ at 1. simpl. apply foldl_Zadd. Qed.

Lemma sumZ_bits (l : list Z) :
  Forall is_bit l → (0 ≤ sumZ l ≤ Z.of_nat (length l))%Z.
Proof.
  induction 1 as [|x l Hx _ IH]; [unfold sumZ; simpl; lia|].
  rewrite sumZ_cons. cbn [length]. destruct Hx as [-> | ->]; lia.
Qed.

Lemma sumZ_bits_pos (l : list Z) x :
  Forall is_bit l → x ∈ l → x ≠ 0%Z → (1 ≤ sumZ l)%Z.
Proof.
  intros Hl Hin Hx. induction Hl as [|y l Hy Hl IH]; [inversion Hin|].
  rewrite sumZ_cons. pose proof (sumZ_bits l Hl) as Hb.
  apply elem_of_cons in Hin as [<- | Hin].
  - destruct Hy as [-> | ->]; [congruence|lia].
  - specialize (IH Hin). destruct Hy as [-> | ->]; lia.
Qed.

Lemma length_mask_row m Q LQ i : shape m = [Q; LQ] → length (mask_row m i) = LQ.
Proof.
  intros Hm. unfold mask_row. rewrite Hm, length_fmap, length_seq. reflexivity.
Qed.

Lemma mask_row_bits m i : Forall is_bit (data m) → Forall is_bit (mask_row m i).
Proof.
  intros Hb. unfold mask_row. apply Forall_fmap, Forall_forall. intros j _. simpl.
  apply (tget_Forall is_bit); [exact Hb|]. right. reflexivity.
Qed.

(** When every separator index lies in its row, [mask_sep] returns: the
    heap is updated at the reference passed in, with the mask that the
    scatter leaves. *)
Lemma mask_sep_Some
    (h : heap) (qry_attention_mask : loc) (m : tensor Z) (Q LQ : nat) :
  h !! qry_attention_mask = Some m →
  shape m = [Q; LQ] →
  wf m →
  (∀ i, i < Q → (0 ≤ sep_index m i < Z.of_nat LQ)%Z) →
  ∃ m',
    mask_sep qry_attention_mask h
      = Some (qry_attention_mask, <[qry_attention_mask := m']> h)
    ∧ shape m' = [Q; LQ]
    ∧ wf m'
    ∧ ∀ i j, i < Q → j < LQ →
        tget m' [i; j] =
          if decide (i < Q ∧ Z.of_nat j = sep_index m i) then 0%Z
          else tget m [i; j].
Proof.
  intros Href Hm Hwf Hin.
  rewrite (mask_sep_unfold Q LQ m Hm h _ Href).
  edestruct (scatter_rows Q LQ m) as (m' & Hfold & Hs & Hwf' & Hget);
    [exact Hm|exact Hwf|reflexivity| |].
  { intros i Hi. rewrite (sep_pos_get Q LQ m Hm i Hi). apply Hin, Hi. }
  rewrite Hfold. cbn [mbind option_bind].
  exists m'. split; [reflexivity|]. split; [exact Hs|]. split; [exact Hwf'|].
  intros i j Hi Hj. rewrite (Hget i j Hi Hj).
  rewrite (sep_pos_get Q LQ m Hm i Hi), (zeros_get Q LQ m i Hi). reflexivity.
Qed.

(** C3.  [mask_sep] zeroes, in every row of the query attention mask, the
    position [sum(row) - 1] and leaves every other entry as it was; the
    mask is updated in place (the heap holds the new mask at the
    reference passed in, every other reference is untouched) and the
    reference passed in is returned. *)
Theorem mask_sep_zeroes_separator
    (h : heap) (qry_attention_mask : loc) (m : tensor Z) (Q LQ : nat) :
  h !! qry_attention_mask = Some m →
  shape m = [Q; LQ] →
  wf m →
  (∀ i, i < Q → (0 ≤ sep_index m i < Z.of_nat LQ)%Z) →
  ∃ m',
    mask_sep qry_attention_mask h
      = Some (qry_attention_mask, <[qry_attention_mask := m']> h)
    ∧ shape m' = [Q; LQ]
    ∧ wf m'
    ∧ ∀ i, i < Q →
        ∃ k, k < LQ
          ∧ Z.of_nat k = sep_index m i
          ∧ tget m' [i; k] = 0%Z
          ∧ ∀ j, j < LQ → j ≠ k → tget m' [i; j] = tget m [i; j].
Proof.
  intros Href Hm Hwf Hin.
  destruct (mask_sep_Some h qry_attention_mask m Q LQ Href Hm Hwf Hin)
    as (m' & Hrun & Hs & Hwf' & Hget).
  exists m'. split; [exact Hrun|]. split; [exact Hs|]. split; [exact Hwf'|].
  intros i Hi. pose proof (Hin i Hi) as Hb.
  exists (Z.to_nat (sep_index m i)).
  split; [lia|]. split; [lia|]. split.
  - rewrite Hget by lia. rewrite decide_True by lia. reflexivity.
  - intros j Hj Hne. rewrite Hget by lia. rewrite decide_False by lia. reflexivity.
Qed.

(** C10.  A row of the query attention mask that sums to 0 makes the
    separator index -1, outside the row, and [mask_sep] has no result;
    when the mask is 0/1 and every row has an attended position, the
    index is within the bounds of its row and [mask_sep] returns. *)
Theorem mask_sep_precondition
    (h : heap) (qry_attention_mask : loc) (m : tensor Z) (Q LQ : nat) :
  h !! qry_attention_mask = Some m →
  shape m = [Q; LQ] →
  wf m →
  (∀ i, i < Q → sumZ (mask_row m i) = 0%Z →
     sep_index m i = (-1)%Z ∧ mask_sep qry_attention_mask h = None)
  ∧ (Forall is_bit (data m) →
     (∀ i, i < Q → ∃ j, j < LQ ∧ tget m [i; j] ≠ 0%Z) →
     (∀ i, i < Q → (0 ≤ sep_index m i < Z.of_nat LQ)%Z)
     ∧ is_Some (mask_sep qry_attention_mask h)).
Proof.
  intros Href Hm Hwf. split.
  - intros i Hi Hsum. unfold sep_index. rewrite Hsum. split; [reflexivity|].
    rewrite (mask_sep_unfold Q LQ m Hm h _ Href).
    rewrite (scatter_rows_None Q LQ m _ _ i Hi); [reflexivity|].
    rewrite (sep_pos_get Q LQ m Hm i Hi). unfold sep_index. rewrite Hsum. lia.
  - intros Hbits Hrows.
    assert (Hin : ∀ i, i < Q → (0 ≤ sep_index m i < Z.of_nat LQ)%Z).
    { intros i Hi. destruct (Hrows i Hi) as (j & Hj & Hne).
      pose proof (mask_row_bits m i Hbits) as Hrb.
      pose proof (sumZ_bits _ Hrb) as Hub.
      rewrite (length_mask_row m Q LQ i Hm) in Hub.
      assert (Hel : tget m [i; j] ∈ mask_row m i).
      { unfold mask_row. rewrite Hm. apply list_elem_of_fmap.
        exists j. split; [reflexivity|]. apply elem_of_seq. simpl. lia. }
      pose proof (sumZ_bits_pos _ _ Hrb Hel Hne). unfold sep_index. lia. }
    split; [exact Hin|].
    destruct (mask_sep_Some h qry_attention_mask m Q LQ Href Hm Hwf Hin)
      as (m' & -> & _). eauto.
Qed.
(** ** Model B: [forward] and [encode] *)

Section ForwardClaims.
Context `{Scalar F}.

Lemma ranking_labels_eq (self : TILDEv2 F) (scores : tensor F) n :
  tsize scores 0 = Some n →
  ranking_labels self scores =
    Some (Tensor [n] ((λ i, Z.of_nat i * train_group_size self)%Z <$> seq 0 n)).
Proof.
  intros Hn. unfold ranking_labels. rewrite Hn. cbn [mbind option_bind].
  unfold tmap, arange. cbn [shape data]. rewrite <- list_fmap_compose. reflexivity.
Qed.


(** C7.  [encode] fails its assertion exactly when one of [input_ids],
    [attention_mask], [token_type_ids] is missing from the features; when
    the three are present it returns the rectified projection of the
    backbone's hidden states, and the only errors are those of the
    backbone and of the projection. *)
Theorem encode_assertion (self : TILDEv2 F) (h : heap) (feats : features) :
  (encode self h feats = Raise AssertionError
   ↔ ∃ k, k ∈ required_keys ∧ feats !! k = None)
  ∧ ((∀ k, k ∈ required_keys → is_Some (feats !! k)) →
     encode self h feats =
       match bert self (load h feats) ≫= tok_proj self with
       | Some reps => Ok (relu reps)
       | None => Raise CalleeError
       end).
Proof.
  unfold encode, required_keys. cbn [forallb].
  destruct (feats !! "input_ids") as [a|] eqn:Ea;
    destruct (feats !! "attention_mask") as [b|] eqn:Eb;
    destruct (feats !! "token_type_ids") as [c|] eqn:Ec;
    cbn [bool_decide decide_rel is_Some_dec andb].
  all: split.
  all: try (split; [intros _; eexists; split; [|eassumption]; set_solver|reflexivity]).
  all: try (intros Hall;
            first [ destruct (Hall "input_ids" ltac:(set_solver)) as [? Hx]
                  | idtac ];
            first [ destruct (Hall "attention_mask" ltac:(set_solver)) as [? Hy]
                  | idtac ];
            first [ destruct (Hall "token_type_ids" ltac:(set_solver)) as [? Hz]
                  | idtac ];
            congruence).
  - split.
    + destruct (bert self (load h feats)) as [x|]; cbn [mbind option_bind];
        [destruct (tok_proj self x)|]; discriminate.
    + intros (k & Hk & Hnone).
      repeat (apply elem_of_cons in Hk as [-> | Hk]); try congruence.
      inversion Hk.
  - intros _. destruct (bert self (load h feats)) as [x|]; reflexivity.
Qed.

End ForwardClaims.

(** ** The trainer *)

Ltac mem_inv H :=
  repeat (apply elem_of_cons in H as [H|H]);
  try discriminate H; try (apply elem_of_nil in H; destruct H).

Section TrainerClaims.
Context {Model Dataset Collator Sampler : Type}.
Abbreviation Trainer := (@TILDEv2Trainer Model Dataset Collator Sampler).

(** C8.  With no training dataset configured, [get_train_dataloader]
    raises its [ValueError] at once: no sampler was asked for and no
    loader was built. *)
Theorem get_train_dataloader_no_dataset (self : Trainer) :
  train_dataset self = None →
  get_train_dataloader self
    = ([], Raise (ValueError "Trainer: training requires a train_dataset.")).
Proof. intros Hnone. unfold get_train_dataloader. rewrite Hnone. reflexivity. Qed.

(** A call of [_save] that returns was given a directory with a name
    and made every call of the method, in the order of the source. *)
Lemma save_returned (fs : FileSystem) (self : Trainer) (dir : option string) :
  (_save fs self dir).2 = Returned →
  default (output_dir (args self)) dir ≠ EmptyString
  ∧ (_save fs self dir).1
    = [MakeDirs (default (output_dir (args self)) dir);
       ModelSavePretrained (default (output_dir (args self)) dir)]
      ++ (if has_tokenizer self && is_world_process_zero self
          then [TokenizerSavePretrained (default (output_dir (args self)) dir)]
          else [])
      ++ [TorchSave (args self)
            (path_join (default (output_dir (args self)) dir) "training_args.bin")].
Proof.
  unfold _save, perform.
  destruct (raises fs (MakeDirs _)) eqn:E1; [discriminate|].
  destruct (raises fs (ModelSavePretrained _)) eqn:E2; [discriminate|].
  intros Hret. split.
  { intros Hd. rewrite Hd in E1. discriminate. }
  destruct (has_tokenizer self && is_world_process_zero self).
  - destruct (raises fs (TokenizerSavePretrained _)) eqn:E3; [discriminate|].
    destruct (raises fs (TorchSave _ _)) eqn:E4; [discriminate|]. reflexivity.
  - destruct (raises fs (TorchSave _ _)) eqn:E4; [discriminate|]. reflexivity.
Qed.

(** C9 (amended).  A call of [_save] that returns (no callee raised) has
    written the model weights and the serialized training arguments (as
    [training_args.bin]) to the output directory, the one given or else
    the configured one; the tokenizer files have been written exactly
    when a tokenizer is configured and the worker is world-process-zero. *)
Theorem save_writes (fs : FileSystem) (self : Trainer) (dir : option string) :
  (_save fs self dir).2 = Returned →
  ModelSavePretrained (default (output_dir (args self)) dir) ∈ (_save fs self dir).1
  ∧ TorchSave (args self)
      (path_join (default (output_dir (args self)) dir) "training_args.bin")
      ∈ (_save fs self dir).1
  ∧ (TokenizerSavePretrained (default (output_dir (args self)) dir)
       ∈ (_save fs self dir).1
     ↔ has_tokenizer self = true ∧ is_world_process_zero self = true)
  ∧ (∀ d, TokenizerSavePretrained d ∈ (_save fs self dir).1
       → d = default (output_dir (args self)) dir).
Proof.
  intros Hret. destruct (save_returned fs self dir Hret) as [_ ->].
  destruct (has_tokenizer self), (is_world_process_zero self); cbn [andb app].
  all: split; [repeat constructor|].
  all: split; [repeat constructor|].
  all: split; [|intros d Hin; mem_inv Hin; congruence].
  all: split;
    [ intros Hin; first [split; reflexivity | mem_inv Hin]
    | intros [? ?]; first [discriminate | repeat constructor] ].
Qed.

End TrainerClaims.
(** ** Rows, [torch.where] and indexing by a tensor *)

Lemma filter_fmap_on {A B} (f : A → B) (P : B → Prop) (Q : A → Prop)
    `{!∀ x, Decision (P x), !∀ x, Decision (Q x)} (l : list A) :
  (∀ x, x ∈ l → (P (f x) ↔ Q x)) → filter P (f <$> l) = f <$> filter Q l.
Proof.
  induction l as [|x l IH]; intros Hpq; [reflexivity|].
  rewrite fmap_cons, !filter_cons.
  rewrite IH by (intros y Hy; apply Hpq; right; exact Hy).
  destruct (decide (P (f x))) as [Hp|Hp], (decide (Q x)) as [Hq|Hq];
    try reflexivity; exfalso.
  - apply Hq, Hpq; [left|exact Hp].
  - apply Hp, Hpq; [left|exact Hq].
Qed.

Lemma filter_ext_on {A} (P Q : A → Prop)
    `{!∀ x, Decision (P x), !∀ x, Decision (Q x)} (l : list A) :
  (∀ x, x ∈ l → (P x ↔ Q x)) → filter P l = filter Q l.
Proof.
  intros Hpq. rewrite <- (list_fmap_id l) at 1.
  rewrite (filter_fmap_on (λ x, x) P Q l Hpq). apply list_fmap_id.
Qed.

Lemma fmap_seq_lookup {A B} (g : A → B) (l : list A) (d : A) :
  (λ a, g (default d (l !! a))) <$> seq 0 (length l) = g <$> l.
Proof.
  apply list_eq. intros i. rewrite !list_lookup_fmap.
  destruct (l !! i) as [x|] eqn:E.
  - rewrite lookup_seq_lt by (eapply lookup_lt_Some; eauto). simpl.
    rewrite E. reflexivity.
  - rewrite lookup_seq_ge by (apply lookup_ge_None; exact E). reflexivity.
Qed.

Lemma indices_vec n : indices [n] = (λ j, [j]) <$> seq 0 n.
Proof.
  unfold indices. replace (numel [n]) with n by (cbn; lia).
  apply list_fmap_ext. intros _ j _. unfold unravel.
  change (numel []) with 1. rewrite Nat.div_1_r. reflexivity.
Qed.

Lemma tget_vec `{Inhabited A} n (l : list A) a :
  tget (Tensor [n] l) [a] = default inhabitant (l !! a).
Proof. unfold tget. cbn. do 2 f_equal. lia. Qed.

Section Rows.
Context `{Inhabited A}.

Lemma select0_row (t : tensor A) B V i :
  shape t = [B; V] → wf t → i < B →
  ∃ row, select0 t i = Some row ∧ shape row = [V] ∧ wf row
    ∧ ∀ j, j < V → tget row [j] = tget t [i; j].
Proof.
  intros Hs Hwf Hi. unfold select0. rewrite Hs.
  rewrite (proj2 (Nat.ltb_lt _ _) Hi).
  eexists. split; [reflexivity|]. split; [reflexivity|].
  unfold wf in Hwf. rewrite Hs in Hwf. cbn in Hwf.
  split.
  - unfold wf. cbn [shape data]. rewrite length_take, length_drop, Hwf. cbn. nia.
  - intros j Hj. unfold tget. cbn [shape data]. rewrite Hs.
    rewrite lookup_take_lt by (cbn; lia). rewrite lookup_drop.
    do 2 f_equal; cbn; lia.
Qed.

Lemma index_select_row (t : tensor A) V (J : list nat) :
  shape t = [V] → Forall (λ j, j < V) J →
  index_select t (Tensor [length J] (Z.of_nat <$> J))
    = Some (Tensor [length J] ((λ j, tget t [j]) <$> J)).
Proof.
  intros Hs HJ. unfold index_select. rewrite Hs. cbn [data shape].
  assert (Hall : forallb (λ v, (- Z.of_nat V <=? v)%Z && (v <? Z.of_nat V)%Z)
                   (Z.of_nat <$> J) = true).
  { apply forallb_forall. intros v Hv. apply list_elem_of_In in Hv.
    apply list_elem_of_fmap in Hv as (j & -> & Hj).
    rewrite Forall_forall in HJ. specialize (HJ j Hj).
    apply andb_true_iff. split; [apply Z.leb_le|apply Z.ltb_lt]; lia. }
  rewrite Hall. unfold tinit. cbn [length app]. rewrite indices_vec.
  do 2 f_equal. rewrite <- list_fmap_compose.
  rewrite <- (fmap_seq_lookup (λ j, tget t [j]) J 0).
  apply list_fmap_ext. intros i a Ha. cbn [compose take drop].
  apply lookup_seq in Ha as [-> Ha]. cbn [Nat.add].
  rewrite tget_vec, list_lookup_fmap.
  destruct (J !! i) as [j|] eqn:E;
    [|apply lookup_ge_None in E; lia].
  cbn [fmap option_fmap option_map default]. unfold Datatypes.id.
  replace (norm_index V (Z.of_nat j)) with j; [reflexivity|].
  unfold norm_index. destruct (Z.ltb_spec (Z.of_nat j) 0); lia.
Qed.

End Rows.

Lemma where0_row (y : tensor Z) V (c : Z) :
  shape y = [V] → wf y →
  where0 (tmap (λ v, v =? c)%Z y)
    = Some (Tensor [length (filter (λ j, tget y [j] = c) (seq 0 V))]
              (Z.of_nat <$> filter (λ j, tget y [j] = c) (seq 0 V))).
Proof.
  intros Hs Hwf. unfold where0. cbn [shape tmap]. rewrite Hs, indices_vec.
  rewrite (filter_fmap_on (λ j, [j]) _ (λ j, tget y [j] = c)).
  - rewrite length_fmap, <- list_fmap_compose. reflexivity.
  - intros j Hj. apply elem_of_seq in Hj.
    change (tget {| shape := [V]; data := (λ v, (v =? c)%Z) <$> data y |} [j])
      with (tget (tmap (λ v, (v =? c)%Z) y) [j]) .
    rewrite (tget_tmap (λ v, v =? c)%Z y [j] Hwf);
      [|rewrite Hs; in_bounds_tac].
    apply Z.eqb_eq.
Qed.
(** ** Model A: the loss *)

Section Loss.
Context `{Scalar F, Transcendental F}.

Lemma filter_seq_lt (P : nat → Prop) `{!∀ j, Decision (P j)} V :
  Forall (λ j, j < V) (filter P (seq 0 V)).
Proof.
  apply Forall_forall. intros j Hj.
  apply list_elem_of_filter in Hj as [_ Hj]. apply elem_of_seq in Hj. lia.
Qed.

(** The elements of row [i] picked by the label [c], as [training_step]
    gathers them. *)
Lemma gather_row (prob : tensor F) (ys : tensor Z) B V i (c : Z) :
  shape prob = [B; V] → wf prob → shape ys = [B; V] → wf ys → i < B →
  ∃ y p,
    select0 ys i = Some y
    ∧ where0 (tmap (λ v, v =? c)%Z y)
        = Some (Tensor [length (filter (λ j, tget ys [i; j] = c) (seq 0 V))]
                  (Z.of_nat <$> filter (λ j, tget ys [i; j] = c) (seq 0 V)))
    ∧ select0 prob i = Some p
    ∧ index_select p
        (Tensor [length (filter (λ j, tget ys [i; j] = c) (seq 0 V))]
           (Z.of_nat <$> filter (λ j, tget ys [i; j] = c) (seq 0 V)))
        = Some (Tensor [length (filter (λ j, tget ys [i; j] = c) (seq 0 V))]
                  ((λ j, tget prob [i; j])
                     <$> filter (λ j, tget ys [i; j] = c) (seq 0 V))).
Proof.
  intros Hp Hwp Hy Hwy Hi.
  destruct (select0_row ys B V i Hy Hwy Hi) as (y & Hsy & Hshy & Hwfy & Hgy).
  destruct (select0_row prob B V i Hp Hwp Hi) as (p & Hsp & Hshp & Hwfp & Hgp).
  exists y, p. split; [exact Hsy|].
  assert (HJ : filter (λ j, tget y [j] = c) (seq 0 V)
               = filter (λ j, tget ys [i; j] = c) (seq 0 V)).
  { apply filter_ext_on. intros j Hj. apply elem_of_seq in Hj.
    rewrite Hgy by lia. reflexivity. }
  split; [rewrite (where0_row y V c Hshy Hwfy), HJ; reflexivity|].
  split; [exact Hsp|].
  rewrite (index_select_row p V _ Hshp (filter_seq_lt _ V)).
  do 2 f_equal. apply list_fmap_ext. intros k j Hk.
  apply Hgp. apply list_elem_of_lookup_2 in Hk.
  apply list_elem_of_filter in Hk as [_ Hk]. apply elem_of_seq in Hk. lia.
Qed.

Lemma pos_log_sum_eq (prob : tensor F) (ys : tensor Z) B V i :
  shape prob = [B; V] → wf prob → shape ys = [B; V] → wf ys → i < B →
  pos_log_sum prob ys i =
    Some (tsum ((λ j, flog (tget prob [i; j]))
                  <$> filter (λ j, tget ys [i; j] = 1%Z) (seq 0 V))).
Proof.
  intros Hp Hwp Hy Hwy Hi.
  destruct (gather_row prob ys B V i 1 Hp Hwp Hy Hwy Hi)
    as (y & p & Hsy & Hw & Hsp & Hg).
  unfold pos_log_sum. rewrite Hsy. cbn [mbind option_bind].
  rewrite Hw. cbn [mbind option_bind]. rewrite Hsp. cbn [mbind option_bind].
  rewrite Hg. cbn [mbind option_bind tmap data].
  rewrite <- list_fmap_compose. reflexivity.
Qed.

Lemma neg_log_sum_eq (prob : tensor F) (ys : tensor Z) B V i :
  shape prob = [B; V] → wf prob → shape ys = [B; V] → wf ys → i < B →
  neg_log_sum prob ys i =
    Some (tsum ((λ j, flog (fsub (of_Z 1) (tget prob [i; j])))
                  <$> filter (λ j, tget ys [i; j] = 0%Z) (seq 0 V))).
Proof.
  intros Hp Hwp Hy Hwy Hi.
  destruct (gather_row prob ys B V i 0 Hp Hwp Hy Hwy Hi)
    as (y & p & Hsy & Hw & Hsp & Hg).
  unfold neg_log_sum. rewrite Hsy. cbn [mbind option_bind].
  rewrite Hw. cbn [mbind option_bind]. rewrite Hsp. cbn [mbind option_bind].
  rewrite Hg. cbn [mbind option_bind tmap data].
  rewrite <- !list_fmap_compose. reflexivity.
Qed.

Lemma filter_seq_none (P : nat → Prop) `{!∀ j, Decision (P j)} V :
  (∀ j, j < V → ¬ P j) → filter P (seq 0 V) = [].
Proof.
  intros Hnone. rewrite (filter_ext_on P (λ _, False)).
  - induction (seq 0 V) as [|x l IH]; [reflexivity|].
    rewrite filter_cons_False by tauto. exact IH.
  - intros j Hj. apply elem_of_seq in Hj. split; [apply Hnone; lia|tauto].
Qed.

(** C6.  In the loss of Model A, an example whose labels are all 1 has
    a negative log-term sum of exactly 0, and an example whose labels are
    all 0 has a positive log-term sum of exactly 0. *)
Theorem empty_label_set_sum_zero (prob : tensor F) (ys : tensor Z) (B V i : nat) :
  shape prob = [B; V] → wf prob → shape ys = [B; V] → wf ys → i < B →
  ((∀ j, j < V → tget ys [i; j] = 1%Z) → neg_log_sum prob ys i = Some fzero)
  ∧ ((∀ j, j < V → tget ys [i; j] = 0%Z) → pos_log_sum prob ys i = Some fzero).
Proof.
  intros Hp Hwp Hy Hwy Hi. split; intros Hall.
  - rewrite (neg_log_sum_eq prob ys B V i Hp Hwp Hy Hwy Hi).
    rewrite filter_seq_none; [reflexivity|].
    intros j Hj. rewrite (Hall j Hj). discriminate.
  - rewrite (pos_log_sum_eq prob ys B V i Hp Hwp Hy Hwy Hi).
    rewrite filter_seq_none; [reflexivity|].
    intros j Hj. rewrite (Hall j Hj). discriminate.
Qed.

End Loss.
Section TrainingStep.
Context `{NegLaws F} `{!Transcendental F}.

Lemma tsum_snoc (l : list F) x : tsum (l ++ [x]) = fadd (tsum l) x.
Proof. unfold tsum. rewrite foldl_app. reflexivity. Qed.

(** The first-position logits and their sigmoid. *)
Lemma first_position_prob (logits : tensor F) B L V :
  shape logits = [B; L; V] → 0 < L →
  ∃ outputs, select1 logits 0 = Some outputs
    ∧ shape (tmap fsigmoid outputs) = [B; V]
    ∧ wf (tmap fsigmoid outputs)
    ∧ ∀ i j, i < B → j < V →
        tget (tmap fsigmoid outputs) [i; j] = fsigmoid (tget logits [i; 0; j]).
Proof.
  intros Hs HL. unfold select1. rewrite Hs.
  rewrite (proj2 (Nat.ltb_lt _ _) HL).
  eexists. split; [reflexivity|]. split; [reflexivity|].
  split; [apply wf_tmap, wf_tinit|].
  intros i j Hi Hj.
  rewrite tget_tmap; [|apply wf_tinit|simpl; in_bounds_tac].
  rewrite tget_tinit by in_bounds_tac. reflexivity.
Qed.

(** One example of one side, as the loop computes it and as the
    specification words it. *)
Lemma example_terms (logits prob : tensor F) (ys : tensor Z) B V i :
  shape prob = [B; V] → wf prob → shape ys = [B; V] → wf ys → i < B →
  (∀ j, j < V → tget prob [i; j] = fsigmoid (tget logits [i; 0; j])) →
  ∃ p n, pos_log_sum prob ys i = Some p ∧ neg_log_sum prob ys i = Some n
    ∧ fadd (fneg p) (fneg n)
      = spec_example_loss V (λ j, fsigmoid (tget logits [i; 0; j]))
          (λ j, tget ys [i; j]).
Proof.
  intros Hp Hwp Hy Hwy Hi Hprob.
  rewrite (pos_log_sum_eq prob ys B V i Hp Hwp Hy Hwy Hi).
  rewrite (neg_log_sum_eq prob ys B V i Hp Hwp Hy Hwy Hi).
  eexists _, _. split; [reflexivity|]. split; [reflexivity|].
  unfold spec_example_loss. f_equal; do 2 f_equal.
  - apply list_fmap_ext. intros k j Hk. rewrite Hprob; [reflexivity|].
    apply list_elem_of_lookup_2 in Hk.
    apply list_elem_of_filter in Hk as [_ Hk]. apply elem_of_seq in Hk. lia.
  - apply list_fmap_ext. intros k j Hk. rewrite Hprob; [reflexivity|].
    apply list_elem_of_lookup_2 in Hk.
    apply list_elem_of_filter in Hk as [_ Hk]. apply elem_of_seq in Hk. lia.
Qed.

(** The state of the two accumulators after [n] iterations. *)
Lemma loss_loop (batch : Batch) (pl ql bp bq : tensor F) B V n :
  shape bp = [B; V] → wf bp → shape bq = [B; V] → wf bq →
  shape (yqs batch) = [B; V] → wf (yqs batch) →
  shape (yds batch) = [B; V] → wf (yds batch) →
  (∀ i j, i < B → j < V → tget bp [i; j] = fsigmoid (tget pl [i; 0; j])) →
  (∀ i j, i < B → j < V → tget bq [i; j] = fsigmoid (tget ql [i; 0; j])) →
  n ≤ B →
  ∃ a b,
    foldl (loss_step bp bq batch) (Some (PyInt 0, PyInt 0)) (seq 0 n) = Some (a, b)
    ∧ to_F a = spec_side_loss n V pl (yqs batch)
    ∧ to_F b = spec_side_loss n V ql (yds batch)
    ∧ match n with
      | 0 => a = PyInt 0 ∧ b = PyInt 0
      | S _ => (∃ x, a = PyTensor x) ∧ (∃ y, b = PyTensor y)
      end.
Proof.
  intros Hbp Hwbp Hbq Hwbq Hyq Hwyq Hyd Hwyd Hp Hq.
  induction n as [|n IH]; intros Hn.
  - exists (PyInt 0), (PyInt 0). split; [reflexivity|].
    unfold spec_side_loss, tsum. cbn. rewrite of_Z_zero. auto.
  - destruct IH as (a & b & Hfold & Ha & Hb & _); [lia|].
    rewrite seq_S, foldl_app, Hfold. cbn [foldl Nat.add].
    destruct (example_terms pl bp (yqs batch) B V n Hbp Hwbp Hyq Hwyq Hn)
      as (pp & pn & Hpp & Hpn & Hpe); [intros j Hj; apply Hp; lia|].
    destruct (example_terms ql bq (yds batch) B V n Hbq Hwbq Hyd Hwyd Hn)
      as (qp & qn & Hqp & Hqn & Hqe); [intros j Hj; apply Hq; lia|].
    unfold loss_step. cbn [mbind option_bind].
    rewrite Hpp, Hpn, Hqp, Hqn. cbn [mbind option_bind].
    eexists _, _. split; [reflexivity|].
    unfold spec_side_loss. rewrite !seq_S, !fmap_app, !fmap_cons, !fmap_nil, !tsum_snoc.
    cbn [Nat.add]. unfold py_sub. cbn [to_F].
    rewrite !fsub_def, !fneg_add, Ha, Hb, Hpe, Hqe.
    unfold spec_side_loss.
    split; [reflexivity|]. split; [reflexivity|]. split; eexists; reflexivity.
Qed.

(** C1.  On a batch of [B] examples per side whose logits range over [V]
    vocabulary entries, [training_step] returns the sum, over both sides
    and every example, of minus the sum of [log p] over the entries
    labelled 1 plus minus the sum of [log (1 - p)] over the entries
    labelled 0 ([p] the sigmoid of the first-position logits), divided by
    twice [num_valid_tok], which [__init__] sets to the vocabulary size
    minus the number of stop ids.  (Dividing the Python integer 0 of an
    empty batch by a zero [num_valid_tok] raises instead.) *)
Theorem training_step_loss
    (get_stop_ids : Tokenizer → gset Z)
    (lm : tensor Z → tensor Z → tensor Z → option (tensor F))
    (tok : Tokenizer) (batch : Batch)
    (passage_logits query_logits : tensor F) (B Lp Lq V : nat) :
  lm (passage_input_ids batch) (passage_token_type_ids batch)
     (passage_attention_mask batch) = Some passage_logits →
  lm (query_input_ids batch) (query_token_type_ids batch)
     (query_ttention_mask batch) = Some query_logits →
  shape passage_logits = [B; Lp; V] → 0 < Lp →
  shape query_logits = [B; Lq; V] → 0 < Lq →
  shape (yqs batch) = [B; V] → wf (yqs batch) →
  shape (yds batch) = [B; V] → wf (yds batch) →
  num_valid_tok (TILDE_init get_stop_ids lm tok)
    = (vocab_size tok - Z.of_nat (size (get_stop_ids tok)))%Z
  ∧ training_step (TILDE_init get_stop_ids lm tok) batch =
      if (B =? 0) && (num_valid_tok (TILDE_init get_stop_ids lm tok) * 2 =? 0)%Z
      then None
      else Some (spec_loss B V (vocab_size tok) (Z.of_nat (size (get_stop_ids tok)))
                   passage_logits query_logits (yqs batch) (yds batch)).
Proof.
  intros Hlp Hlq Hsp HLp Hsq HLq Hyq Hwyq Hyd Hwyd.
  split; [reflexivity|].
  unfold training_step. cbn [bert_lm TILDE_init num_valid_tok].
  rewrite Hlp. cbn [mbind option_bind].
  destruct (first_position_prob passage_logits B Lp V Hsp HLp)
    as (po & -> & Hbp & Hwbp & Hp). cbn [mbind option_bind].
  rewrite Hlq. cbn [mbind option_bind].
  destruct (first_position_prob query_logits B Lq V Hsq HLq)
    as (qo & -> & Hbq & Hwbq & Hq). cbn [mbind option_bind].
  unfold tsize. rewrite Hyq. cbn [lookup list_lookup mbind option_bind].
  destruct (loss_loop batch passage_logits query_logits
              (tmap fsigmoid po) (tmap fsigmoid qo) B V B
              Hbp Hwbp Hbq Hwbq Hyq Hwyq Hyd Hwyd Hp Hq (Nat.le_refl B))
    as (a & b & -> & Ha & Hb & Hkind).
  cbn [mbind option_bind]. unfold spec_loss.
  destruct B as [|B'].
  - destruct Hkind as [-> ->]. cbn [py_add py_div Nat.eqb andb].
    destruct (_ =? 0)%Z; [reflexivity|].
    do 2 f_equal. unfold spec_side_loss, tsum. cbn.
    rewrite fadd_0_l. apply of_Z_zero.
  - destruct Hkind as [[x ->] [y ->]]. cbn [py_add py_div Nat.eqb andb to_F].
    cbn [to_F] in Ha, Hb. rewrite Ha, Hb. reflexivity.
Qed.

End TrainingStep.
(** ** The laws on the reals *)

Global Instance R_neg_laws : NegLaws R.
Proof.
  split; cbn.
  - reflexivity.
  - apply Ropp_plus_distr.
  - apply Rplus_0_l.
  - reflexivity.
Qed.

(** ** The laws of the sign on binary32 *)

Lemma iter_pos_invariant {A} (f : A → A) (Inv : A → Prop) :
  (∀ x, Inv x → Inv (f x)) → ∀ n x, Inv x → Inv (SpecFloat.iter_pos f n x).
Proof.
  intros Hf. induction n as [n IH|n IH|]; intros x Hx; cbn.
  - apply IH, IH, Hf, Hx.
  - apply IH, IH, Hx.
  - apply Hf, Hx.
Qed.

Lemma shr_1_nonneg mrs : (0 ≤ shr_m mrs)%Z → (0 ≤ shr_m (shr_1 mrs))%Z.
Proof.
  destruct mrs as [m r s]. cbn.
  destruct m as [|[p|p|]|[p|p|]]; cbn; lia.
Qed.

Lemma shr_nonneg mrs e n : (0 ≤ shr_m mrs)%Z → (0 ≤ shr_m (shr mrs e n).1)%Z.
Proof.
  intros Hm. unfold shr. destruct n as [|p|p]; cbn; [exact Hm| |exact Hm].
  apply (iter_pos_invariant shr_1 (λ x, (0 ≤ shr_m x)%Z) shr_1_nonneg), Hm.
Qed.

Lemma shr_fexp_nonneg prec emax m e l :
  (0 ≤ m)%Z → (0 ≤ shr_m (shr_fexp prec emax m e l).1)%Z.
Proof.
  intros Hm. unfold shr_fexp. apply shr_nonneg.
  destruct l as [|[]]; cbn; exact Hm.
Qed.

Lemma round_nearest_even_nonneg m l : (0 ≤ m)%Z → (0 ≤ round_nearest_even m l)%Z.
Proof.
  intros Hm. unfold round_nearest_even.
  destruct l as [|[]]; [lia| |lia|lia]. destruct (Z.even m); lia.
Qed.

(** Rounding a non-negative mantissa gives a non-negative float. *)
Lemma binary_round_aux_nonneg m e l :
  (0 ≤ m)%Z → fle fzero (binary_round_aux 24 128 false m e l).
Proof.
  intros Hm. unfold binary_round_aux.
  pose proof (shr_fexp_nonneg 24 128 m e l Hm) as H1.
  destruct (shr_fexp 24 128 m e l) as [mrs' e']. cbn [fst] in H1.
  pose proof (shr_fexp_nonneg 24 128 _ e' loc_Exact
                (round_nearest_even_nonneg _ (loc_of_shr_record mrs') H1)) as H2.
  destruct (shr_fexp 24 128 _ e' loc_Exact) as [mrs'' e'']. cbn [fst] in H2.
  destruct (shr_m mrs'') as [|p|p]; [reflexivity| |lia].
  destruct (e'' <=? 128 - 24)%Z; reflexivity.
Qed.

Lemma digits_shift23 (m : positive) :
  Zpos (digits2_pos (m~0~0~0~0~0~0~0~0~0~0~0~0~0~0~0~0~0~0~0~0~0~0~0))
  = (Zpos (digits2_pos m) + 23)%Z.
Proof. cbn [digits2_pos]. lia. Qed.

Lemma shr_shift23 (m : positive) (e : Z) :
  shr (Build_shr_record (Zpos (m~0~0~0~0~0~0~0~0~0~0~0~0~0~0~0~0~0~0~0~0~0~0~0))
         false false) e 23
  = (Build_shr_record (Zpos m) false false, (e + 23)%Z).
Proof. reflexivity. Qed.

Lemma round_exact_f32 s (m : positive) (e : Z) :
  bounded 24 128 m e = true →
  binary_round_aux 24 128 s
    (Zpos (m~0~0~0~0~0~0~0~0~0~0~0~0~0~0~0~0~0~0~0~0~0~0~0)) (e + -23) loc_Exact
  = S754_finite s m e.
Proof.
  intros Hb. unfold bounded, canonical_mantissa in Hb.
  apply andb_prop in Hb as [Hc He]. apply Z.eqb_eq in Hc.
  unfold binary_round_aux, shr_fexp. unfold Zdigits2 at 1.
  rewrite digits_shift23.
  replace (Z.pos (digits2_pos m) + 23 + (e + -23))%Z
    with (Z.pos (digits2_pos m) + e)%Z by lia.
  rewrite Hc. replace (e - (e + -23))%Z with 23%Z by lia.
  cbn [shr_record_of_loc]. rewrite shr_shift23.
  cbn [shr_m loc_of_shr_record round_nearest_even Zdigits2].
  replace (e + -23 + 23)%Z with e by lia.
  rewrite Hc, Z.sub_diag. cbn [shr shr_record_of_loc shr_m].
  rewrite He. reflexivity.
Qed.

Lemma SFadd_finite_nonneg ma ea mb eb :
  fle fzero (SFadd 24 128 (S754_finite false ma ea) (S754_finite false mb eb)).
Proof.
  unfold SFadd. cbn [cond_Zopp].
  destruct (shl_align ma ea _) as [ma' ea'], (shl_align mb eb _) as [mb' eb'].
  cbn [fst]. change (Z.pos ma' + Z.pos mb')%Z with (Z.pos (ma' + mb')).
  unfold binary_normalize, binary_round.
  destruct (shl_align _ _ _) as [mz ez].
  apply binary_round_aux_nonneg. lia.
Qed.

Lemma f32_max_choice a b :
  a ≠ S754_nan → b ≠ S754_nan → f32_max a b = a ∨ f32_max a b = b.
Proof.
  intros Ha Hb. unfold f32_max.
  destruct a, b; try congruence; destruct (SFltb _ _); auto.
Qed.

Lemma fin_nonneg_f32 (a : spec_float) :
  fin_nonneg a ↔
  (∃ s, a = S754_zero s)
  ∨ ∃ m e, a = S754_finite false m e ∧ bounded 24 128 m e = true.
Proof.
  unfold fin_nonneg. split.
  - intros [Hn Hf]. destruct a as [s|s| |[] m e]; cbn in *;
      try discriminate; try contradiction; eauto.
  - intros [[s ->]|(m & e & -> & Hb)]; (split; [reflexivity|]); [exact I|exact Hb].
Qed.

Global Instance F32_sign_laws : SignLaws spec_float.
Proof.
  split.
  - split; [reflexivity|exact I].
  - split; reflexivity.
  - intros a b Ha Hb.
    destruct a as [sa|[]| |[] ma ea]; try discriminate Ha;
      destruct b as [sb|[]| |[] mb eb]; try discriminate Hb;
      try reflexivity; try apply SFadd_finite_nonneg.
    destruct sa, sb; reflexivity.
  - intros a b Ha Hb Hfin.
    destruct a as [sa|[]| |[] ma ea]; try discriminate Ha;
      destruct b as [sb|[]| |[] mb eb]; try discriminate Hb;
      try contradiction Hfin; try reflexivity.
    cbn [fmul F32_scalar SFmul xorb]. apply binary_round_aux_nonneg. lia.
  - intros a Ha. apply fin_nonneg_f32 in Ha as [[s ->]|(m & e & -> & Hb)];
      apply fin_nonneg_f32.
    + left. destruct s; eexists; reflexivity.
    + right. exists m, e. split; [reflexivity|exact Hb].
  - intros a b Ha Hb.
    destruct (f32_max_choice a b) as [E|E].
    + apply fin_nonneg_f32 in Ha as [[s ->]|(m & e & -> & _)]; discriminate.
    + apply fin_nonneg_f32 in Hb as [[s ->]|(m & e & -> & _)]; discriminate.
    + cbn [fmax F32_scalar]. rewrite E. exact Ha.
    + cbn [fmax F32_scalar]. rewrite E. exact Hb.
  - intros a Ha. apply fin_nonneg_f32 in Ha as [[s ->]|(m & e & -> & Hb)];
      apply fin_nonneg_f32.
    + left. eexists. reflexivity.
    + right. exists m, e. split; [|exact Hb].
      cbn [fmul fone F32_scalar SFmul xorb]. rewrite Pos.mul_comm.
      cbn [Pos.mul]. apply round_exact_f32, Hb.
  - intros a Ha. apply fin_nonneg_f32 in Ha as [[s ->]|(m & e & -> & Hb)];
      apply fin_nonneg_f32; left; eexists; reflexivity.
  - intros a Ha. apply fin_nonneg_f32 in Ha as [[s ->]|(m & e & -> & Hb)];
      apply fin_nonneg_f32.
    + left. eexists. reflexivity.
    + right. exists m, e. split; [|exact Hb].
      cbn [fmul fone F32_scalar SFmul xorb Pos.mul].
      replace (-23 + e)%Z with (e + -23)%Z by lia.
      apply round_exact_f32, Hb.
  - intros a Ha. apply fin_nonneg_f32 in Ha as [[s ->]|(m & e & -> & Hb)];
      apply fin_nonneg_f32; left; eexists; reflexivity.
  - intros a Ha. apply fin_nonneg_f32.
    destruct a as [s|s| |[] m e]; try contradiction Ha.
    + left. exists s. reflexivity.
    + left. exists false. reflexivity.
    + right. exists m, e. split; [reflexivity|exact Ha].
  - reflexivity.
  - reflexivity.
Qed.

(** ** The model at work on the sample data *)

Import Scenario.

Example mask_sep_sample :
  mask_sep 1 example_heap = Some (1, <[1 := qry_mask_sep]> example_heap).
Proof. vm_compute. reflexivity. Qed.

Example mask_sep_empty_row : mask_sep 0 {[ 0 := empty_row_mask ]} = None.
Proof. vm_compute. reflexivity. Qed.

Example compute_tok_score_cart_sample :
  compute_tok_score_cart doc_reps doc_ids qry_reps qry_ids qry_mask_sep
    = Some Scenario.scores.
Proof. vm_compute. reflexivity. Qed.

(** Documents without any position: the maximum over their positions
    does not exist. *)
Example compute_tok_score_cart_no_position :
  compute_tok_score_cart (Tensor [8; 0; 1] []) (Tensor [8; 0] [])
    qry_reps qry_ids qry_mask_sep = None.
Proof. vm_compute. reflexivity. Qed.

Example save_sample :
  _save quiet_fs worker_trainer (Some "ckpt/") =
    ([MakeDirs "ckpt/"; ModelSavePretrained "ckpt/";
      TorchSave (args worker_trainer) "ckpt/training_args.bin"], Returned).
Proof. reflexivity. Qed.

(** [os.makedirs] raises on the empty path before anything is written;
    when writing the model weights raises, the training arguments are not
    written. *)
Example save_empty_path :
  _save quiet_fs worker_trainer (Some "") = ([], RaisedAt (MakeDirs "")).
Proof. reflexivity. Qed.

Example save_full_disk :
  _save full_disk_fs worker_trainer None
    = ([MakeDirs "out"], RaisedAt (ModelSavePretrained "out")).
Proof. reflexivity. Qed.

(** The scores on binary32 floats. *)
Example compute_tok_score_cart_sample32 :
  compute_tok_score_cart doc_reps32 doc_ids qry_reps32 qry_ids qry_mask_sep
    = Some (Tensor [1; 8]
              [fzero; fzero; fzero; fone; fzero; fzero; fzero; fzero]).
Proof. vm_compute. reflexivity. Qed.

(** ** The theorems at work on the sample data *)

Lemma training_step_loss_witness :
  num_valid_tok (TILDE_init stop_ids lm tok)
    = (vocab_size tok - Z.of_nat (size (stop_ids tok)))%Z
  ∧ training_step (TILDE_init stop_ids lm tok) batch =
      if (1 =? 0) && (num_valid_tok (TILDE_init stop_ids lm tok) * 2 =? 0)%Z
      then None
      else Some (spec_loss 1 2 (vocab_size tok) (Z.of_nat (size (stop_ids tok)))
                   zero_logits zero_logits (yqs batch) (yds batch)).
Proof.
  apply (training_step_loss stop_ids lm tok batch zero_logits zero_logits 1 1 1 2);
    first [reflexivity | lia].
Defined.


Lemma mask_sep_zeroes_separator_witness :
  ∃ m',
    mask_sep 1 example_heap = Some (1, <[1 := m']> example_heap)
    ∧ shape m' = [1; 3]
    ∧ wf m'
    ∧ ∀ i, i < 1 →
        ∃ k, k < 3
          ∧ Z.of_nat k = sep_index qry_mask i
          ∧ tget m' [i; k] = 0%Z
          ∧ ∀ j, j < 3 → j ≠ k → tget m' [i; j] = tget qry_mask [i; j].
Proof.
  apply (mask_sep_zeroes_separator example_heap 1 qry_mask 1 3);
    [reflexivity|reflexivity|reflexivity|].
  intros i Hi. replace i with 0 by lia.
  change (sep_index qry_mask 0) with 2%Z. lia.
Defined.

Lemma compute_tok_score_cart_shape_nonneg_witness :
  ∃ tok_scores,
    compute_tok_score_cart doc_reps32 doc_ids qry_reps32 qry_ids qry_mask_sep
      = Some tok_scores
    ∧ shape tok_scores = [1; 8]
    ∧ length (data tok_scores) = 1 * 8
    ∧ ∀ q d, q < 1 → d < 8 → SFleb (S754_zero false) (tget tok_scores [q; d]) = true.
Proof.
  destruct (compute_tok_score_cart_shape_nonneg (F := spec_float) 1 3 8 3
              doc_reps32 doc_ids qry_reps32 qry_ids qry_mask_sep
              eq_refl eq_refl eq_refl eq_refl eq_refl ltac:(lia))
    as (out & Hout & Hshape & Hlen & Hnn).
  exists out. split; [exact Hout|]. split; [exact Hshape|]. split; [exact Hlen|].
  apply Hnn.
  - cbn. repeat (apply Forall_cons_2; [reflexivity|]). apply Forall_nil_2.
  - cbn. repeat (apply Forall_cons_2; [reflexivity|]). apply Forall_nil_2.
  - intros q lq d ld Hq Hlq Hd Hld.
    destruct q as [|q]; [|lia].
    destruct lq as [|[|[|lq]]]; [| | |lia];
      (destruct d as [|[|[|[|[|[|[|[|d]]]]]]]]; [| | | | | | | |lia]);
      (destruct ld as [|[|[|ld]]]; [| | |lia]); reflexivity.
  - cbn. repeat (apply Forall_cons_2; [auto|]). apply Forall_nil_2.
Defined.

Lemma exact_match_gate_values_witness :
  ∃ exact_match,
    exact_match_gate doc_ids qry_ids = Some exact_match
    ∧ shape exact_match = [1; 3; 8; 3]
    ∧ ∀ q lq d ld, q < 1 → lq < 3 → d < 8 → ld < 3 →
        (tget qry_ids [q; lq] = tget doc_ids [d; ld] →
           tget exact_match [q; lq; d; ld] = 1%Q)
        ∧ (tget qry_ids [q; lq] ≠ tget doc_ids [d; ld] →
           tget exact_match [q; lq; d; ld] = 0%Q).
Proof.
  refine (exact_match_gate_values (F := Q) 1 3 8 3 doc_ids qry_ids _ _); reflexivity.
Defined.

Lemma empty_label_set_sum_zero_witness :
  neg_log_sum (tmap fsigmoid (Tensor [1; 2] [0; 0]%R)) (yds batch) 0 = Some 0%R
  ∧ pos_log_sum (tmap fsigmoid (Tensor [1; 2] [0; 0]%R)) (neg_yds batch) 0 = Some 0%R.
Proof.
  split.
  - refine (proj1 (empty_label_set_sum_zero (F := R)
                     (tmap fsigmoid (Tensor [1; 2] [0; 0]%R)) (yds batch) 1 2 0
                     eq_refl eq_refl eq_refl eq_refl ltac:(lia)) _).
    intros [|[|j]] Hj; [reflexivity|reflexivity|lia].
  - refine (proj2 (empty_label_set_sum_zero (F := R)
                     (tmap fsigmoid (Tensor [1; 2] [0; 0]%R)) (neg_yds batch) 1 2 0
                     eq_refl eq_refl eq_refl eq_refl ltac:(lia)) _).
    intros [|[|j]] Hj; [reflexivity|reflexivity|lia].
Defined.

Lemma encode_assertion_witness :
  encode probe_model example_heap (delete "attention_mask" qry_in)
    = Raise AssertionError
  ∧ encode probe_model example_heap qry_in
    = Ok (relu (Tensor [1; 3; 1] [1; 1; 1]%Q)).
Proof.
  split.
  - apply (proj1 (encode_assertion probe_model example_heap
                    (delete "attention_mask" qry_in))).
    exists "attention_mask". split; [|reflexivity].
    unfold required_keys. repeat constructor.
  - refine (proj2 (encode_assertion probe_model example_heap qry_in) _).
    intros k Hk. unfold required_keys in Hk.
    repeat (apply elem_of_cons in Hk as [-> | Hk]);
      [eexists; reflexivity..|inversion Hk].
Defined.

Lemma get_train_dataloader_no_dataset_witness :
  get_train_dataloader worker_trainer
    = ([], Raise (ValueError "Trainer: training requires a train_dataset.")).
Proof. apply (get_train_dataloader_no_dataset worker_trainer). reflexivity. Defined.

Lemma save_writes_witness :
  ModelSavePretrained "ckpt/" ∈ (_save quiet_fs worker_trainer (Some "ckpt/")).1
  ∧ TorchSave (args worker_trainer) (path_join "ckpt/" "training_args.bin")
      ∈ (_save quiet_fs worker_trainer (Some "ckpt/")).1
  ∧ (TokenizerSavePretrained "ckpt/" ∈ (_save quiet_fs worker_trainer (Some "ckpt/")).1
     ↔ has_tokenizer worker_trainer = true
       ∧ is_world_process_zero worker_trainer = true)
  ∧ (∀ d, TokenizerSavePretrained d ∈ (_save quiet_fs worker_trainer (Some "ckpt/")).1
       → d = "ckpt/").
Proof. apply (save_writes quiet_fs worker_trainer (Some "ckpt/")). reflexivity. Defined.

Lemma mask_sep_precondition_witness :
  (sep_index empty_row_mask 0 = (-1)%Z
   ∧ mask_sep 0 {[ 0 := empty_row_mask ]} = None)
  ∧ (∀ i, i < 1 → (0 ≤ sep_index qry_mask i < Z.of_nat 3)%Z)
  ∧ is_Some (mask_sep 1 example_heap).
Proof.
  split.
  - refine (proj1 (mask_sep_precondition {[ 0 := empty_row_mask ]} 0
                     empty_row_mask 1 3 eq_refl eq_refl eq_refl)
              0 ltac:(lia) eq_refl).
  - refine (proj2 (mask_sep_precondition example_heap 1 qry_mask 1 3
                     eq_refl eq_refl eq_refl) _ _).
    + cbn. repeat (apply Forall_cons_2; [unfold is_bit; auto|]). apply Forall_nil_2.
    + intros i Hi. exists 0. split; [lia|]. replace i with 0 by lia. discriminate.
Defined.

(** ** Where the code departs from the specification *)


(** C4.  Non-negative weights and a 0/1 mask do not make the scores
    non-negative on the floats of the code.  With the query weights all
    1 (what [forward] passes) and an infinite document weight, and with
    finite weights 2^100 whose product overflows, a gate of 0 meets an
    infinite product and every cell is NaN, which is not >= 0. *)
Lemma compute_tok_score_cart_nan :
  Forall (fle fzero) (data inf_doc_reps32)
  ∧ Forall (fle fzero) (data qry_reps32)
  ∧ compute_tok_score_cart inf_doc_reps32 doc_ids qry_reps32 qry_ids qry_mask_sep
    = Some (Tensor [1; 8] (replicate 8 S754_nan))
  ∧ Forall fin_nonneg (data huge_doc_reps32)
  ∧ Forall fin_nonneg (data huge_qry_reps32)
  ∧ Forall (λ z, z = 0 ∨ z = 1)%Z (data qry_mask_sep)
  ∧ compute_tok_score_cart huge_doc_reps32 doc_ids huge_qry_reps32 qry_ids
      qry_mask_sep
    = Some (Tensor [1; 8] (replicate 8 S754_nan))
  ∧ ¬ fle fzero (tget (Tensor [1; 8] (replicate 8 S754_nan)) [0; 0]).
Proof.
  split; [cbn; repeat (apply Forall_cons_2; [reflexivity|]); apply Forall_nil_2|].
  split; [cbn; repeat (apply Forall_cons_2; [reflexivity|]); apply Forall_nil_2|].
  split; [vm_compute; reflexivity|].
  split; [cbn; repeat (apply Forall_cons_2; [split; reflexivity|]);
          apply Forall_nil_2|].
  split; [cbn; repeat (apply Forall_cons_2; [split; reflexivity|]);
          apply Forall_nil_2|].
  split; [cbn; repeat (apply Forall_cons_2; [auto|]); apply Forall_nil_2|].
  split; [vm_compute; reflexivity|].
  cbn. discriminate.
Qed.

(** C9.  On calls that return, a trainer without tokenizer writes no
    tokenizer files, and a worker that is not world-process-zero writes
    the model weights and the training arguments all the same. *)
Lemma save_not_all_three :
  (_save quiet_fs bare_trainer None).2 = Returned
  ∧ (TokenizerSavePretrained "out" ∉ (_save quiet_fs bare_trainer None).1)
  ∧ is_world_process_zero worker_trainer = false
  ∧ (_save quiet_fs worker_trainer None).2 = Returned
  ∧ (TokenizerSavePretrained "out" ∉ (_save quiet_fs worker_trainer None).1)
  ∧ (ModelSavePretrained "out" ∈ (_save quiet_fs worker_trainer None).1)
  ∧ (TorchSave (args worker_trainer) "out/training_args.bin"
       ∈ (_save quiet_fs worker_trainer None).1).
Proof.
  split; [reflexivity|].
  split; [intros Hin; cbn in Hin; mem_inv Hin|].
  split; [reflexivity|].
  split; [reflexivity|].
  split; [intros Hin; cbn in Hin; mem_inv Hin|].
  split; cbn; repeat constructor.
Qed.
(** * Further properties *)

(** Two well-formed tensors of one shape with the same elements are
    equal. *)
Lemma tensor_ext `{Inhabited A} (s t : tensor A) :
  shape s = shape t → wf s → wf t →
  (∀ idx, in_bounds (shape s) idx → tget s idx = tget t idx) → s = t.
Proof.
  destruct s as [sh ds], t as [sh' dt]. unfold wf. cbn [shape data].
  intros <- Hs Ht Hget. f_equal. apply list_eq. intros i.
  destruct (decide (i < numel sh)) as [Hi|Hi].
  - specialize (Hget (unravel sh i) (unravel_in_bounds sh i Hi)).
    unfold tget in Hget. cbn [shape data] in Hget.
    rewrite ravel_unravel in Hget by exact Hi.
    destruct (ds !! i) as [x|] eqn:Ex; [|apply lookup_ge_None in Ex; lia].
    destruct (dt !! i) as [y|] eqn:Ey; [|apply lookup_ge_None in Ey; lia].
    cbn in Hget. congruence.
  - rewrite !(proj2 (lookup_ge_None _ _)) by lia. reflexivity.
Qed.

Section ScoreProperties.
Context `{Scalar F}.

(** X1.  Every cell [q, d] of the matrix [compute_tok_score_cart]
    returns is the sum, over the query positions after the first, of the
    largest gated product [query weight * document weight * gate] over
    the positions of document [d], times the mask of the query
    position. *)
Theorem compute_tok_score_cart_cell
    (Q LQ D LD : nat) (doc_reps : tensor F) (doc_input_ids : tensor Z)
    (qry_reps : tensor F) (qry_input_ids qry_attention_mask : tensor Z) :
  shape qry_input_ids = [Q; LQ] →
  shape doc_input_ids = [D; LD] →
  shape qry_reps = [Q; LQ; 1] →
  shape doc_reps = [D; LD; 1] →
  shape qry_attention_mask = [Q; LQ] →
  0 < LD →
  ∃ tok_scores,
    compute_tok_score_cart doc_reps doc_input_ids qry_reps qry_input_ids
      qry_attention_mask = Some tok_scores
    ∧ shape tok_scores = [Q; D]
    ∧ ∀ q d, q < Q → d < D →
        tget tok_scores [q; d] =
          tsum ((λ l, position_score LD doc_reps doc_input_ids qry_reps
                        qry_input_ids qry_attention_mask q d (S l))
                  <$> seq 0 (LQ - 1)).
Proof.
  destruct doc_reps as [s1 dr], doc_input_ids as [s2 dd], qry_reps as [s3 qr],
    qry_input_ids as [s4 qd], qry_attention_mask as [s5 md]. simpl.
  intros -> -> -> -> -> HLD.
  destruct (tok_scores_cell Q LQ D LD dr dd qr qd md HLD)
    as (out & Hout & Hsh & _ & Hget).
  exists out. auto.
Qed.

(** X2.  The first position of a query (its classification token) never
    counts: two query inputs that agree on every later position get the
    same score matrix, whatever their token, weight and mask at
    position 0. *)
Theorem compute_tok_score_cart_ignores_first_position
    (Q LQ D LD : nat) (doc_reps : tensor F) (doc_input_ids : tensor Z)
    (qry_reps qry_reps' : tensor F)
    (qry_input_ids qry_input_ids' qry_attention_mask qry_attention_mask' : tensor Z) :
  shape doc_input_ids = [D; LD] →
  shape doc_reps = [D; LD; 1] →
  shape qry_input_ids = [Q; LQ] → shape qry_input_ids' = [Q; LQ] →
  shape qry_reps = [Q; LQ; 1] → shape qry_reps' = [Q; LQ; 1] →
  shape qry_attention_mask = [Q; LQ] → shape qry_attention_mask' = [Q; LQ] →
  0 < LD →
  (∀ q lq, q < Q → 1 ≤ lq < LQ →
     tget qry_input_ids [q; lq] = tget qry_input_ids' [q; lq]
     ∧ tget qry_reps [q; lq; 0] = tget qry_reps' [q; lq; 0]
     ∧ tget qry_attention_mask [q; lq] = tget qry_attention_mask' [q; lq]) →
  ∃ tok_scores,
    compute_tok_score_cart doc_reps doc_input_ids qry_reps qry_input_ids
      qry_attention_mask = Some tok_scores
    ∧ compute_tok_score_cart doc_reps doc_input_ids qry_reps' qry_input_ids'
        qry_attention_mask' = Some tok_scores.
Proof.
  destruct doc_reps as [s1 dr], doc_input_ids as [s2 dd], qry_reps as [s3 qr],
    qry_input_ids as [s4 qd], qry_attention_mask as [s5 md],
    qry_reps' as [s3' qr'], qry_input_ids' as [s4' qd'],
    qry_attention_mask' as [s5' md']. simpl.
  intros -> -> -> -> -> -> -> -> HLD Hagree.
  destruct (tok_scores_cell Q LQ D LD dr dd qr qd md HLD)
    as (out & Hout & Hsh & Hwf & Hget).
  destruct (tok_scores_cell Q LQ D LD dr dd qr' qd' md' HLD)
    as (out' & Hout' & Hsh' & Hwf' & Hget').
  exists out. split; [exact Hout|]. rewrite Hout'. f_equal.
  apply tensor_ext; [congruence|exact Hwf'|exact Hwf|].
  rewrite Hsh'. intros idx Hidx.
  apply in_bounds_inv2 in Hidx as (q & d & -> & Hq & Hd).
  rewrite Hget, Hget' by assumption. f_equal.
  apply list_fmap_ext. intros k l Hk. apply lookup_seq in Hk as [-> Hk].
  cbn [Nat.add]. destruct (Hagree q (S k) Hq ltac:(lia)) as (Hi & Hr & Hm).
  unfold position_score. rewrite Hi, Hr, Hm. reflexivity.
Qed.

End ScoreProperties.

Section ScoreZero.
Context `{ZeroLaws F}.

Lemma fmax_list_zeros (l : list F) : Forall (λ x, x = fzero) l → fmax_list l = fzero.
Proof.
  destruct l as [|x l]; [reflexivity|]. intros Hl.
  apply Forall_cons in Hl as [-> Hl]. cbn [fmax_list].
  induction Hl as [|y l -> _ IH]; [reflexivity|].
  cbn [foldl]. rewrite fmax_zero_zero. exact IH.
Qed.

Lemma tsum_zeros (l : list F) : Forall (λ x, x = fzero) l → tsum l = fzero.
Proof.
  unfold tsum. induction 1 as [|y l -> _ IH]; [reflexivity|].
  cbn [foldl]. rewrite fadd_zero_zero. exact IH.
Qed.

(** X3.  A document scores zero for a query when every query position
    after the first is masked out or holds a token that occurs nowhere in
    the document. *)
Theorem compute_tok_score_cart_no_match
    (Q LQ D LD : nat) (doc_reps : tensor F) (doc_input_ids : tensor Z)
    (qry_reps : tensor F) (qry_input_ids qry_attention_mask : tensor Z)
    (q d : nat) :
  shape qry_input_ids = [Q; LQ] →
  shape doc_input_ids = [D; LD] →
  shape qry_reps = [Q; LQ; 1] →
  shape doc_reps = [D; LD; 1] →
  shape qry_attention_mask = [Q; LQ] →
  0 < LD → q < Q → d < D →
  (∀ lq, 1 ≤ lq < LQ →
     tget qry_attention_mask [q; lq] = 0%Z
     ∨ ∀ ld, ld < LD → tget doc_input_ids [d; ld] ≠ tget qry_input_ids [q; lq]) →
  ∃ tok_scores,
    compute_tok_score_cart doc_reps doc_input_ids qry_reps qry_input_ids
      qry_attention_mask = Some tok_scores
    ∧ tget tok_scores [q; d] = fzero.
Proof.
  destruct doc_reps as [s1 dr], doc_input_ids as [s2 dd], qry_reps as [s3 qr],
    qry_input_ids as [s4 qd], qry_attention_mask as [s5 md]. simpl.
  intros -> -> -> -> -> HLD Hq Hd Hno.
  destruct (tok_scores_cell Q LQ D LD dr dd qr qd md HLD)
    as (out & Hout & Hsh & _ & Hget).
  exists out. split; [exact Hout|]. rewrite Hget by assumption.
  apply tsum_zeros, Forall_fmap, Forall_forall. intros l Hl.
  apply elem_of_seq in Hl. cbn. unfold position_score.
  destruct (Hno (S l) ltac:(lia)) as [Hmask|Hmiss].
  - rewrite Hmask, of_Z_zero'. apply fmul_zero_r.
  - rewrite fmax_list_zeros; [apply fmul_zero_l|].
    apply Forall_fmap, Forall_forall. intros ld Hld.
    apply elem_of_seq in Hld. cbn.
    destruct (Z.eqb_spec (tget (Tensor [D; LD] dd) [d; ld])
                (tget (Tensor [Q; LQ] qd) [q; S l])) as [E|E].
    + exfalso. apply (Hmiss ld); [lia|exact E].
    + apply fmul_zero_r.
Qed.

End ScoreZero.
(** ** Properties that hold whatever the shapes *)

Section AnyShape.
Context {A B E : Type} `{!Inhabited A, !Inhabited B, !Inhabited E}.

Lemma broadcast2_Forall (f : A → B → E) (a : tensor A) (b : tensor B) c
    (Pa : A → Prop) (Pb : B → Prop) (Pc : E → Prop) :
  broadcast2 f a b = Some c →
  Forall Pa (data a) → Pa inhabitant → Forall Pb (data b) → Pb inhabitant →
  (∀ x y, Pa x → Pb y → Pc (f x y)) → Forall Pc (data c).
Proof.
  unfold broadcast2. destruct (broadcast_shape (shape a) (shape b)) as [sh|];
    [|discriminate].
  cbn. intros [= <-] Ha Hda Hb Hdb Hf. apply Forall_tinit. intros idx _.
  apply Hf; apply tget_Forall; assumption.
Qed.

Lemma reduce_dim_Forall k (g : list A → E) (t : tensor A) c
    (P : A → Prop) (Pc : E → Prop) :
  reduce_dim k g t = Some c →
  Forall P (data t) → P inhabitant → (∀ l, Forall P l → Pc (g l)) →
  Forall Pc (data c).
Proof.
  unfold reduce_dim. destruct (shape t !! k) as [n|]; [|discriminate].
  cbn. intros [= <-] Ht Hd Hg. apply Forall_tinit. intros idx _.
  apply Hg, fibre_Forall; assumption.
Qed.

Lemma slice_from_Forall k start (t c : tensor A) (P : A → Prop) :
  slice_from k start t = Some c → Forall P (data t) → P inhabitant →
  Forall P (data c).
Proof.
  unfold slice_from. destruct (shape t !! k) as [n|]; [|discriminate].
  cbn. intros [= <-] Ht Hd. apply Forall_tinit. intros idx _.
  apply tget_Forall; assumption.
Qed.

Lemma transpose01_Forall (t c : tensor A) (P : A → Prop) :
  transpose01 t = Some c → Forall P (data t) → P inhabitant → Forall P (data c).
Proof.
  unfold transpose01. destruct (shape t) as [|n [|m sh]]; try discriminate.
  intros [= <-] Ht Hd. apply Forall_tinit. intros idx _.
  destruct idx as [|j [|i r]]; try exact Hd. apply tget_Forall; assumption.
Qed.

Lemma unsqueeze_data k (t c : tensor A) : unsqueeze k t = Some c → data c = data t.
Proof.
  unfold unsqueeze. destruct (k <=? length (shape t)); [|discriminate].
  intros [= <-]. reflexivity.
Qed.

Lemma view_data sh (t c : tensor A) : view sh t = Some c → data c = data t.
Proof.
  unfold view. destruct (numel sh =? numel (shape t)); [|discriminate].
  intros [= <-]. reflexivity.
Qed.

End AnyShape.

Section AnyShapeScatter.
Context `{Inhabited A}.

Lemma scatter_fold_Forall (P : A → Prop) k n (index : tensor Z) (src : tensor A)
    (l : list (list nat)) (acc : option (tensor A)) (c : tensor A) :
  foldl (scatter_step k n index src) acc l = Some c →
  Forall P (data src) → P inhabitant →
  ∃ t, acc = Some t
    ∧ (Forall P (data t) → Forall P (data c)) ∧ shape c = shape t.
Proof.
  intros Hfold Hsrc Hd. revert acc Hfold.
  induction l as [|idx l IH]; intros acc Hfold; cbn in Hfold.
  - exists c. auto.
  - destruct (IH _ Hfold) as (t' & Hstep & Hall & Hsh).
    unfold scatter_step in Hstep. destruct acc as [t|]; [|discriminate].
    cbn in Hstep.
    destruct ((0 <=? tget index idx)%Z && (tget index idx <? Z.of_nat n)%Z);
      [|discriminate].
    injection Hstep as <-. exists t. split; [reflexivity|].
    split; [|exact Hsh]. intros Ht. apply Hall. cbn [tset data].
    apply Forall_insert; [exact Ht|]. apply tget_Forall; assumption.
Qed.

Lemma scatter_Forall (P : A → Prop) k (self : tensor A) (index : tensor Z)
    (src c : tensor A) :
  scatter k self index src = Some c →
  Forall P (data self) → Forall P (data src) → P inhabitant →
  Forall P (data c) ∧ shape c = shape self.
Proof.
  unfold scatter. destruct (shape self !! k) as [n|]; [|discriminate]. cbn.
  destruct (decide _); [|discriminate].
  intros Hfold Hself Hsrc Hd.
  destruct (scatter_fold_Forall P k n index src _ _ c Hfold Hsrc Hd)
    as (t & [= <-] & Hall & Hsh). auto.
Qed.

End AnyShapeScatter.

(** [mask_sep] changes the heap at the reference it is given and nowhere
    else, keeps the shape of the mask, and keeps a 0/1 mask 0/1. *)
Lemma mask_sep_frame (h h' : heap) (ref r : loc) :
  mask_sep ref h = Some (r, h') →
  r = ref
  ∧ ∃ m m', h !! ref = Some m ∧ h' = <[ref := m']> h ∧ shape m' = shape m
      ∧ (Forall is_bit (data m) → Forall is_bit (data m')).
Proof.
  unfold mask_sep. destruct (h !! ref) as [m|]; [|discriminate].
  cbn [mbind option_bind].
  destruct (tsum_dimZ 1 m) as [s|]; [|discriminate]. cbn [mbind option_bind].
  destruct (unsqueeze 1 s) as [s'|]; [|discriminate]. cbn [mbind option_bind].
  destruct (scatter 1 m _ _) as [m'|] eqn:Hsc; [|discriminate].
  cbn [mbind option_bind]. intros [= <- <-]. split; [reflexivity|].
  exists m, m'. split; [reflexivity|]. split; [reflexivity|].
  assert (Hz : Forall is_bit (data (zeros_like (tmap (λ x, (x - 1)%Z) s')))).
  { unfold zeros_like, tmap. cbn [data]. apply Forall_fmap, Forall_forall.
    intros x _. left. reflexivity. }
  split.
  - eapply (scatter_Forall (λ _, True)); eauto.
    + apply Forall_forall. auto.
    + apply Forall_forall. auto.
  - intros Hm. eapply (scatter_Forall is_bit); eauto. right. reflexivity.
Qed.

Section ReluProperties.
Context `{Scalar F} `{!ReluLaw F}.


End ReluProperties.

Section ForwardProperties.
Context `{SignLaws F}.

(** The rectifier makes finite values finite and non-negative. *)
Lemma fin_nonneg_relu_data (t : tensor F) :
  Forall finite (data t) → Forall fin_nonneg (data (relu t)).
Proof.
  intros Ht. unfold relu, tmap. cbn [data]. apply Forall_fmap.
  eapply Forall_impl; [exact Ht|]. intros x Hx. apply fin_nonneg_relu, Hx.
Qed.

Lemma gate_data (t : tensor bool) :
  Forall (λ g : F, g = fone ∨ g = fzero) (data (to_float t)).
Proof.
  unfold to_float, tmap. cbn [data]. apply Forall_fmap, Forall_forall.
  intros [] _; cbn; auto.
Qed.

(** The product of a column of weights that are all 1 (or 0) with a row
    of finite non-negative weights. *)
Lemma matmul_column_row (a b c : tensor F) (n : nat) :
  matmul a b = Some c → shape a = [n; 1] →
  Forall (λ x : F, x = fone ∨ x = fzero) (data a) →
  Forall fin_nonneg (data b) →
  Forall fin_nonneg (data c).
Proof.
  unfold matmul. intros Hrun Hsa. rewrite Hsa in Hrun.
  destruct (shape b) as [|k' [|m [|? ?]]]; try discriminate.
  destruct (1 =? k'); [|discriminate].
  injection Hrun as <-. intros Ha Hb. apply Forall_tinit. intros idx _.
  destruct idx as [|i [|j [|? ?]]]; try apply fin_nonneg_zero.
  cbn [seq fmap list_fmap]. unfold tsum. cbn [foldl].
  apply fin_nonneg_add_zero.
  assert (Hx : tget a [i; 0] = fone ∨ tget a [i; 0] = fzero).
  { apply (tget_Forall (λ x : F, x = fone ∨ x = fzero)); [exact Ha|].
    right. reflexivity. }
  assert (Hy : fin_nonneg (tget b [0; j])).
  { apply (tget_Forall fin_nonneg); [exact Hb|apply fin_nonneg_inhabitant]. }
  destruct Hx as [-> | ->];
    [apply fin_nonneg_mul_one_l|apply fin_nonneg_mul_zero_l]; exact Hy.
Qed.

(** The scores are non-negative whenever the function returns, given
    query weights that are all 1, finite non-negative document weights
    and a 0/1 mask. *)
Lemma compute_tok_score_cart_nonneg doc_reps doc_ids qry_reps qry_ids qry_mask out :
  compute_tok_score_cart doc_reps doc_ids qry_reps qry_ids qry_mask = Some out →
  Forall fin_nonneg (data doc_reps) →
  Forall (λ x : F, x = fone ∨ x = fzero) (data qry_reps) →
  Forall is_bit (data qry_mask) → Forall nonneg (data out).
Proof.
  unfold compute_tok_score_cart. intros Hrun Hd Hq Hm.
  destruct (exact_match_gate doc_ids qry_ids) as [em|] eqn:Hem; [|discriminate].
  cbn [mbind option_bind] in Hrun.
  assert (Hemn : Forall (λ g : F, g = fone ∨ g = fzero) (data em)).
  { unfold exact_match_gate in Hem.
    destruct (unsqueeze 2 qry_ids ≫= unsqueeze 3); [|discriminate].
    cbn [mbind option_bind] in Hem.
    destruct (unsqueeze 0 doc_ids ≫= unsqueeze 1); [|discriminate].
    cbn [mbind option_bind] in Hem.
    destruct (teq _ _); [|discriminate]. cbn in Hem. injection Hem as <-.
    apply gate_data. }
  destruct (transpose01 (view_m1_1 doc_reps)) as [dt|] eqn:Hdt; [|discriminate].
  cbn [mbind option_bind] in Hrun.
  destruct (matmul (view_m1_1 qry_reps) dt) as [sm|] eqn:Hsm; [|discriminate].
  cbn [mbind option_bind] in Hrun.
  destruct (view _ sm) as [sv|] eqn:Hsv; [|discriminate].
  cbn [mbind option_bind] in Hrun.
  destruct (tmul sv em) as [gated|] eqn:Hg; [|discriminate].
  cbn [mbind option_bind] in Hrun.
  destruct (tmax_dim 3 gated) as [scores|] eqn:Hs; [|discriminate].
  cbn [mbind option_bind] in Hrun.
  destruct (unsqueeze 2 qry_mask) as [mask|] eqn:Hmask; [|discriminate].
  cbn [mbind option_bind] in Hrun.
  destruct (tmul_long scores mask) as [masked|] eqn:Hmm; [|discriminate].
  cbn [mbind option_bind] in Hrun.
  destruct (slice_from 1 1 masked) as [sliced|] eqn:Hsl; [|discriminate].
  cbn [mbind option_bind] in Hrun.
  eapply (reduce_dim_Forall 1 tsum sliced out nonneg nonneg Hrun);
    [|apply nonneg_inhabitant|intros l; apply nonneg_tsum].
  eapply (slice_from_Forall _ _ _ _ nonneg Hsl); [|apply nonneg_inhabitant].
  eapply (broadcast2_Forall _ _ _ _ fin_nonneg is_bit nonneg Hmm).
  - unfold tmax_dim in Hs. destruct (shape gated !! 3) as [n|]; [|discriminate].
    cbn [mbind option_bind] in Hs. destruct (n =? 0); [discriminate|].
    eapply (reduce_dim_Forall 3 fmax_list gated scores fin_nonneg fin_nonneg Hs);
      [|apply fin_nonneg_inhabitant|intros l; apply fin_nonneg_fmax_list].
    eapply (broadcast2_Forall _ _ _ _ fin_nonneg
              (λ g : F, g = fone ∨ g = fzero) fin_nonneg Hg);
      [|apply fin_nonneg_inhabitant|exact Hemn|right; reflexivity
       |intros x y; apply fin_nonneg_gate].
    rewrite (view_data _ _ _ Hsv).
    eapply (matmul_column_row _ _ _ _ Hsm); [reflexivity|exact Hq|].
    eapply (transpose01_Forall _ _ fin_nonneg Hdt);
      [exact Hd|apply fin_nonneg_inhabitant].
  - apply fin_nonneg_inhabitant.
  - rewrite (unsqueeze_data _ _ _ Hmask). exact Hm.
  - right. reflexivity.
  - intros x z Hx Hz. apply (fin_nonneg_of_mask x z Hx Hz).
Qed.

End ForwardProperties.
(** ** [forward] and [encode] *)

Section ForwardInversion.
Context `{Scalar F}.

(** What a returning call of [forward] went through. *)
Lemma forward_inv (self : TILDEv2 F) (qry_in doc_in : features) (h h' : heap)
    (loss : F) (flat : tensor F) :
  forward self qry_in doc_in h = Some (loss, flat, h') →
  ∃ doc_out doc_reps di qi qm r qry_ids doc_ids qry_mask qry_reps scores labels,
    bert self (load h doc_in) = Some doc_out
    ∧ tok_proj self doc_out = Some doc_reps
    ∧ doc_in !! "input_ids" = Some di
    ∧ qry_in !! "input_ids" = Some qi
    ∧ qry_in !! "attention_mask" = Some qm
    ∧ mask_sep qm h = Some (r, h')
    ∧ h' !! qi = Some qry_ids
    ∧ h' !! di = Some doc_ids
    ∧ h' !! qm = Some qry_mask
    ∧ unsqueeze 2 (ones_like qry_ids) = Some qry_reps
    ∧ compute_tok_score_cart (relu doc_reps) doc_ids qry_reps qry_ids qry_mask
      = Some scores
    ∧ ranking_labels self scores = Some labels
    ∧ cross_entropy self scores labels = Some loss
    ∧ flat = view_m1 scores.
Proof.
  unfold forward. intros Hf.
  destruct (bert self (load h doc_in)) as [doc_out|] eqn:E0; [|discriminate].
  cbn [mbind option_bind] in Hf.
  destruct (tok_proj self doc_out) as [doc_reps|] eqn:E1; [|discriminate].
  cbn [mbind option_bind] in Hf.
  destruct (doc_in !! "input_ids") as [di|] eqn:E2; [|discriminate].
  cbn [mbind option_bind] in Hf.
  destruct (qry_in !! "input_ids") as [qi|] eqn:E3; [|discriminate].
  cbn [mbind option_bind] in Hf.
  destruct (qry_in !! "attention_mask") as [qm|] eqn:E4; [|discriminate].
  cbn [mbind option_bind] in Hf.
  destruct (mask_sep qm h) as [[r h1]|] eqn:E5; [|discriminate].
  cbn [mbind option_bind] in Hf.
  destruct (h1 !! qi) as [qry_ids|] eqn:E6; [|discriminate].
  cbn [mbind option_bind] in Hf.
  destruct (h1 !! di) as [doc_ids|] eqn:E7; [|discriminate].
  cbn [mbind option_bind] in Hf.
  destruct (h1 !! qm) as [qry_mask|] eqn:E8; [|discriminate].
  cbn [mbind option_bind] in Hf.
  destruct (unsqueeze 2 (ones_like qry_ids)) as [qry_reps|] eqn:E9; [|discriminate].
  cbn [mbind option_bind] in Hf.
  destruct (compute_tok_score_cart (relu doc_reps) doc_ids qry_reps qry_ids qry_mask)
    as [scores|] eqn:E10; [|discriminate].
  cbn [mbind option_bind] in Hf.
  destruct (ranking_labels self scores) as [labels|] eqn:E11; [|discriminate].
  cbn [mbind option_bind] in Hf.
  destruct (cross_entropy self scores labels) as [l|] eqn:E12; [|discriminate].
  cbn [mbind option_bind] in Hf. injection Hf as -> <- <-.
  exists doc_out, doc_reps, di, qi, qm, r, qry_ids, doc_ids, qry_mask, qry_reps.
  exists scores, labels. repeat (split; [first [reflexivity|assumption]|]). reflexivity.
Qed.

End ForwardInversion.

Section ForwardClaims2.
Context `{SignLaws F}.

(** X4.  Every score [forward] returns is >= 0 when the query attention
    mask it is given is 0/1 and the projected document representations
    are finite (no infinity, no NaN): the rectifier then makes the
    document weights finite and non-negative, the query weights are 1,
    and [mask_sep] leaves a 0/1 mask. *)
Theorem forward_scores_nonneg (self : TILDEv2 F) (qry_in doc_in : features)
    (h h' : heap) (loss : F) (flat : tensor F) (qm : loc) (m : tensor Z)
    (doc_out reps : tensor F) :
  forward self qry_in doc_in h = Some (loss, flat, h') →
  qry_in !! "attention_mask" = Some qm →
  h !! qm = Some m →
  Forall is_bit (data m) →
  bert self (load h doc_in) = Some doc_out →
  tok_proj self doc_out = Some reps →
  Forall finite (data reps) →
  Forall (fle fzero) (data flat).
Proof.
  intros Hf Hqm Hm Hbits Hbert Hproj Hfin.
  destruct (forward_inv self qry_in doc_in h h' loss flat Hf)
    as (doc_out' & doc_reps & di & qi & qm' & r & qry_ids & doc_ids & qry_mask
        & qry_reps & scores & labels & Hbert' & Hproj' & _ & _ & Hqm' & Hsep
        & _ & _ & Hmask & Hones & Hscores & _ & _ & ->).
  rewrite Hbert in Hbert'. injection Hbert' as <-.
  rewrite Hproj in Hproj'. injection Hproj' as <-.
  rewrite Hqm in Hqm'. injection Hqm' as <-.
  destruct (mask_sep_frame h h' qm r Hsep)
    as (_ & m0 & m' & Hm0 & -> & _ & Hkeep).
  rewrite Hm in Hm0. injection Hm0 as <-.
  rewrite lookup_insert_eq in Hmask. injection Hmask as <-.
  cbn [view_m1 data].
  apply (compute_tok_score_cart_nonneg _ _ _ _ _ _ Hscores).
  - apply fin_nonneg_relu_data, Hfin.
  - rewrite (unsqueeze_data _ _ _ Hones). unfold ones_like, tmap. cbn [data].
    apply Forall_fmap, Forall_forall. intros x _. left. reflexivity.
  - apply Hkeep, Hbits.
Qed.

End ForwardClaims2.

Section EncodeClaims.
Context `{Scalar F} `{!ReluLaw F}.


End EncodeClaims.

Section ForwardClaims3.
Context `{Scalar F}.

(** X6.  A call of [forward] that returns scored the documents with
    exactly the weights [encode] returns for the document features,
    provided these hold the three keys [encode] asks for. *)
Theorem forward_uses_encode (self : TILDEv2 F) (qry_in doc_in : features)
    (h h' : heap) (loss : F) (flat : tensor F) :
  forward self qry_in doc_in h = Some (loss, flat, h') →
  is_Some (doc_in !! "attention_mask") →
  is_Some (doc_in !! "token_type_ids") →
  ∃ doc_reps doc_ids qry_reps qry_ids qry_mask scores,
    encode self h doc_in = Ok doc_reps
    ∧ compute_tok_score_cart doc_reps doc_ids qry_reps qry_ids qry_mask
      = Some scores
    ∧ flat = view_m1 scores.
Proof.
  intros Hf [a Ha] [t Ht].
  destruct (forward_inv self qry_in doc_in h h' loss flat Hf)
    as (doc_out & doc_reps & di & qi & qm & r & qry_ids & doc_ids & qry_mask
        & qry_reps & scores & labels & Hbert & Hproj & Hdi & _ & _ & _ & _ & _
        & _ & _ & Hscores & _ & _ & ->).
  exists (relu doc_reps), doc_ids, qry_reps, qry_ids, qry_mask, scores.
  split; [|split; [exact Hscores|reflexivity]].
  unfold encode, required_keys. cbn [forallb]. rewrite Hdi, Ha, Ht.
  cbn [bool_decide decide_rel is_Some_dec andb]. rewrite Hbert, Hproj. reflexivity.
Qed.

(** X7.  A call of [forward] that returns changed one object of the
    caller: the query attention mask, whose rows are zeroed at their
    separator position [sum(row) - 1] and nowhere else.  Every other
    tensor of the heap, the document mask and the token ids included, is
    as it was. *)
Theorem forward_side_effect (self : TILDEv2 F) (qry_in doc_in : features)
    (h h' : heap) (loss : F) (flat : tensor F) (qm : loc) (m : tensor Z)
    (Q LQ : nat) :
  forward self qry_in doc_in h = Some (loss, flat, h') →
  qry_in !! "attention_mask" = Some qm →
  h !! qm = Some m →
  shape m = [Q; LQ] →
  wf m →
  ∃ m',
    h' = <[qm := m']> h
    ∧ shape m' = [Q; LQ]
    ∧ ∀ i, i < Q →
        ∃ k, k < LQ
          ∧ Z.of_nat k = sep_index m i
          ∧ tget m' [i; k] = 0%Z
          ∧ ∀ j, j < LQ → j ≠ k → tget m' [i; j] = tget m [i; j].
Proof.
  intros Hf Hqm Hm Hs Hwf.
  destruct (forward_inv self qry_in doc_in h h' loss flat Hf)
    as (doc_out & doc_reps & di & qi & qm' & r & qry_ids & doc_ids & qry_mask
        & qry_reps & scores & labels & _ & _ & _ & _ & Hqm' & Hsep & _).
  rewrite Hqm in Hqm'. injection Hqm' as <-.
  assert (Hin : ∀ i, i < Q → (0 ≤ sep_index m i < Z.of_nat LQ)%Z).
  { intros i Hi.
    destruct (decide (0 ≤ sep_index m i < Z.of_nat LQ)%Z) as [Hok|Hout];
      [exact Hok|exfalso].
    rewrite (mask_sep_unfold Q LQ m Hs h _ Hm) in Hsep.
    rewrite (scatter_rows_None Q LQ m _ _ i Hi) in Hsep; [discriminate|].
    rewrite (sep_pos_get Q LQ m Hs i Hi). exact Hout. }
  destruct (mask_sep_Some h qm m Q LQ Hm Hs Hwf Hin)
    as (m' & Hrun & Hs' & _ & Hget).
  rewrite Hrun in Hsep. injection Hsep as _ <-.
  exists m'. split; [reflexivity|]. split; [exact Hs'|].
  intros i Hi. pose proof (Hin i Hi) as Hb.
  exists (Z.to_nat (sep_index m i)).
  split; [lia|]. split; [lia|]. split.
  - rewrite Hget by lia. rewrite decide_True by lia. reflexivity.
  - intros j Hj Hne. rewrite Hget by lia. rewrite decide_False by lia. reflexivity.
Qed.

End ForwardClaims3.
(** ** [mask_sep] on padded masks *)

Lemma sumZ_snoc l x : sumZ (l ++ [x]) = (sumZ l + x)%Z.
Proof. unfold sumZ. rewrite foldl_app. reflexivity. Qed.

Lemma sumZ_prefix n s :
  sumZ ((λ j, if j <? s then 1%Z else 0%Z) <$> seq 0 n) = Z.of_nat (s `min` n).
Proof.
  induction n as [|n IH]; [cbn; lia|].
  rewrite seq_S, fmap_app, fmap_cons, fmap_nil, sumZ_snoc, IH. cbn [Nat.add].
  destruct (Nat.ltb_spec n s); lia.
Qed.

Lemma sep_index_prefix m Q LQ i s :
  shape m = [Q; LQ] → attends_prefix m LQ i s → s ≤ LQ →
  sep_index m i = (Z.of_nat s - 1)%Z.
Proof.
  intros Hs Hp Hle. unfold sep_index, mask_row. rewrite Hs. cbn [lookup list_lookup default].
  rewrite (list_fmap_ext _ (λ j, if j <? s then 1%Z else 0%Z) (seq 0 LQ)).
  - rewrite sumZ_prefix. lia.
  - intros k j Hk. apply lookup_seq in Hk as [-> Hk]. apply Hp. lia.
Qed.

(** One call shortens every attended prefix by one position. *)
Lemma mask_sep_prefix_step (h : heap) (ref : loc) (m : tensor Z) (Q LQ : nat)
    (len : nat → nat) :
  h !! ref = Some m → shape m = [Q; LQ] → wf m →
  (∀ i, i < Q → 1 ≤ len i ≤ LQ ∧ attends_prefix m LQ i (len i)) →
  ∃ m', mask_sep ref h = Some (ref, <[ref := m']> h)
    ∧ shape m' = [Q; LQ] ∧ wf m'
    ∧ ∀ i, i < Q → attends_prefix m' LQ i (len i - 1).
Proof.
  intros Href Hs Hwf Hrows.
  assert (Hsep : ∀ i, i < Q → sep_index m i = (Z.of_nat (len i) - 1)%Z).
  { intros i Hi. destruct (Hrows i Hi) as [Hl Hp].
    apply (sep_index_prefix m Q LQ i (len i) Hs Hp). lia. }
  destruct (mask_sep_Some h ref m Q LQ Href Hs Hwf) as (m' & Hrun & Hs' & Hwf' & Hget).
  { intros i Hi. rewrite (Hsep i Hi). destruct (Hrows i Hi) as [Hl _]. lia. }
  exists m'. split; [exact Hrun|]. split; [exact Hs'|]. split; [exact Hwf'|].
  intros i Hi j Hj. rewrite (Hget i j Hi Hj), (Hsep i Hi).
  destruct (Hrows i Hi) as [Hl Hp]. rewrite (Hp j Hj).
  destruct (decide (i < Q ∧ Z.of_nat j = (Z.of_nat (len i) - 1)%Z)) as [[_ E]|E].
  - destruct (Nat.ltb_spec j (len i - 1)); [lia|reflexivity].
  - destruct (Nat.ltb_spec j (len i)), (Nat.ltb_spec j (len i - 1));
      first [reflexivity | lia].
Qed.

(** X8.  On the attention mask of padded sequences (row [i] attends its
    first [len i] positions, [1 <= len i]) [mask_sep] returns the mask of
    the sequences one token shorter: the last attended position of every
    row is masked out and the rows stay prefixes. *)
Theorem mask_sep_shortens_prefix (h : heap) (qry_attention_mask : loc)
    (m : tensor Z) (Q LQ : nat) (len : nat → nat) :
  h !! qry_attention_mask = Some m →
  shape m = [Q; LQ] →
  wf m →
  (∀ i, i < Q → 1 ≤ len i ≤ LQ ∧ attends_prefix m LQ i (len i)) →
  ∃ m',
    mask_sep qry_attention_mask h
      = Some (qry_attention_mask, <[qry_attention_mask := m']> h)
    ∧ shape m' = [Q; LQ]
    ∧ ∀ i, i < Q → attends_prefix m' LQ i (len i - 1).
Proof.
  intros Href Hs Hwf Hrows.
  destruct (mask_sep_prefix_step h _ m Q LQ len Href Hs Hwf Hrows)
    as (m' & Hrun & Hs' & _ & Hp).
  exists m'. auto.
Qed.

(** X9.  [mask_sep] is not idempotent: called twice on the same mask
    object it masks out the last two attended positions of every row. *)
Theorem mask_sep_twice (h : heap) (qry_attention_mask : loc)
    (m : tensor Z) (Q LQ : nat) (len : nat → nat) :
  h !! qry_attention_mask = Some m →
  shape m = [Q; LQ] →
  wf m →
  (∀ i, i < Q → 2 ≤ len i ≤ LQ ∧ attends_prefix m LQ i (len i)) →
  ∃ m'',
    mask_sep qry_attention_mask h ≫= (λ '(r, h1), mask_sep r h1)
      = Some (qry_attention_mask, <[qry_attention_mask := m'']> h)
    ∧ shape m'' = [Q; LQ]
    ∧ ∀ i, i < Q → attends_prefix m'' LQ i (len i - 2).
Proof.
  intros Href Hs Hwf Hrows.
  destruct (mask_sep_prefix_step h _ m Q LQ len Href Hs Hwf)
    as (m' & Hrun & Hs' & Hwf' & Hp).
  { intros i Hi. destruct (Hrows i Hi). split; [lia|assumption]. }
  destruct (mask_sep_prefix_step (<[qry_attention_mask := m']> h) qry_attention_mask
              m' Q LQ (λ i, len i - 1) (lookup_insert_eq _ _ _) Hs' Hwf')
    as (m'' & Hrun' & Hs'' & _ & Hp').
  { intros i Hi. destruct (Hrows i Hi). split; [lia|apply Hp, Hi]. }
  exists m''. rewrite Hrun. cbn [mbind option_bind]. rewrite Hrun'.
  rewrite insert_insert_eq. split; [reflexivity|]. split; [exact Hs''|].
  intros i Hi. replace (len i - 2) with (len i - 1 - 1) by lia. apply Hp', Hi.
Qed.
(** ** Labels of the ranking loss *)

Section Labels.
Context `{Scalar F}.

(** X10.  When the score matrix has one column per document and the
    documents come in groups of [train_group_size] per query, the label
    of query [i] is the column of the first document of its group: a
    valid column, and labels of different queries differ. *)
Theorem ranking_labels_first_of_group (self : TILDEv2 F) (scores : tensor F)
    (Q D g : nat) :
  shape scores = [Q; D] →
  train_group_size self = Z.of_nat g →
  0 < g →
  D = Q * g →
  ∃ labels,
    ranking_labels self scores = Some labels
    ∧ shape labels = [Q]
    ∧ ∀ i, i < Q →
        tget labels [i] = Z.of_nat (i * g)
        ∧ (0 ≤ tget labels [i] < Z.of_nat D)%Z
        ∧ ∀ j, j < Q → tget labels [j] = tget labels [i] → j = i.
Proof.
  intros Hs Hg Hpos HD.
  rewrite (ranking_labels_eq self scores Q) by (unfold tsize; rewrite Hs; reflexivity).
  eexists. split; [reflexivity|]. split; [reflexivity|].
  assert (Hget : ∀ i, i < Q →
            tget (Tensor [Q] ((λ i, Z.of_nat i * train_group_size self)%Z <$> seq 0 Q)) [i]
            = Z.of_nat (i * g)).
  { intros i Hi. rewrite tget_vec, list_lookup_fmap, lookup_seq_lt by exact Hi.
    cbn. rewrite Hg. lia. }
  intros i Hi. rewrite (Hget i Hi). split; [reflexivity|]. split; [nia|].
  intros j Hj. rewrite (Hget j Hj). nia.
Qed.

End Labels.

(** ** Model A: scores and errors *)

Section TILDEProperties.
Context `{Scalar F}.

(** X11.  [TILDE.forward] returns the logits of the first position of
    every sequence, one row per sequence and one column per vocabulary
    entry, with no activation applied; on sequences without any position
    it raises. *)
Theorem TILDE_forward_first_position (self : TILDE F)
    (input_ids token_type_ids attention_mask : tensor Z)
    (logits : tensor F) (B L V : nat) :
  bert_lm self input_ids token_type_ids attention_mask = Some logits →
  shape logits = [B; L; V] →
  (0 < L →
     ∃ outputs,
       TILDE_forward self (input_ids, token_type_ids, attention_mask) = Some outputs
       ∧ shape outputs = [B; V]
       ∧ wf outputs
       ∧ ∀ i j, i < B → j < V → tget outputs [i; j] = tget logits [i; 0; j])
  ∧ (L = 0 →
     TILDE_forward self (input_ids, token_type_ids, attention_mask) = None).
Proof.
  intros Hlm Hs. unfold TILDE_forward. rewrite Hlm. cbn [mbind option_bind].
  unfold select1. rewrite Hs. split.
  - intros HL. rewrite (proj2 (Nat.ltb_lt _ _) HL).
    eexists. split; [reflexivity|]. split; [reflexivity|].
    split; [apply wf_tinit|].
    intros i j Hi Hj. rewrite tget_tinit by in_bounds_tac. reflexivity.
  - intros ->. reflexivity.
Qed.

End TILDEProperties.

Section TrainingStepErrors.
Context `{Scalar F, Transcendental F}.

Lemma loss_step_None bp bq (batch : Batch) l :
  foldl (loss_step bp bq batch) None l = None.
Proof. induction l as [|x l IH]; [reflexivity|exact IH]. Qed.

(** X12.  The loop of [training_step] runs over the rows of the
    passage-side labels [yqs] and reads the same rows of the query-side
    labels [yds]: when [yds] has fewer rows the step raises. *)
Theorem training_step_fewer_query_labels (self : TILDE F) (batch : Batch)
    (B B' V V' : nat) :
  shape (yqs batch) = [B; V] →
  shape (yds batch) = [B'; V'] →
  B' < B →
  training_step self batch = None.
Proof.
  intros Hyq Hyd Hlt. unfold training_step.
  destruct (bert_lm self (passage_input_ids batch) _ _) as [pl|]; [|reflexivity].
  cbn [mbind option_bind].
  destruct (select1 pl 0) as [po|]; [|reflexivity]. cbn [mbind option_bind].
  destruct (bert_lm self (query_input_ids batch) _ _) as [ql|]; [|reflexivity].
  cbn [mbind option_bind].
  destruct (select1 ql 0) as [qo|]; [|reflexivity]. cbn [mbind option_bind].
  unfold tsize. rewrite Hyq. cbn [lookup list_lookup mbind option_bind].
  replace B with (B' + S (B - S B')) by lia.
  rewrite seq_app, foldl_app. cbn [seq foldl Nat.add].
  replace (loss_step _ _ batch _ B') with (@None (pynum F * pynum F));
    [rewrite loss_step_None; reflexivity|].
  unfold loss_step.
  destruct (foldl _ _ _) as [[a b]|]; [|reflexivity]. cbn [mbind option_bind].
  destruct (pos_log_sum _ (yqs batch) B') as [pp|]; [|reflexivity].
  cbn [mbind option_bind].
  destruct (neg_log_sum _ (yqs batch) B') as [pn|]; [|reflexivity].
  cbn [mbind option_bind].
  unfold pos_log_sum at 1, select0. rewrite Hyd.
  rewrite (proj2 (Nat.ltb_ge _ _) (Nat.le_refl B')). reflexivity.
Qed.

End TrainingStepErrors.

(** ** [_prepare_inputs] *)

Lemma prepare_inner device (v : gmap string pyvalue) :
  map_fold (prepare_entry device) ∅ v = omap (to_device device) v.
Proof.
  apply (map_fold_weak_ind (λ r m, r = omap (to_device device) m)).
  - rewrite omap_empty. reflexivity.
  - intros sk sv m r Hnone ->. destruct sv as [d t|s]; cbn [prepare_entry].
    + symmetry. apply omap_insert_Some. reflexivity.
    + rewrite omap_insert_None by reflexivity.
      rewrite delete_id; [reflexivity|].
      rewrite lookup_omap, Hnone. reflexivity.
Qed.

Lemma prepare_outer device (inputs : gmap string (gmap string pyvalue)) :
  _prepare_inputs device inputs
    = (λ v : gmap string pyvalue, omap (to_device device) v) <$> inputs.
Proof.
  unfold _prepare_inputs.
  apply (map_fold_weak_ind
           (λ r m, r = (λ v : gmap string pyvalue, omap (to_device device) v) <$> m)).
  - rewrite fmap_empty. reflexivity.
  - intros k v m r Hnone ->. rewrite fmap_insert, prepare_inner. reflexivity.
Qed.

(** X13.  [_prepare_inputs] keeps every key of the batch and, under each
    key, exactly the entries that are tensors, moved to the device with
    their contents unchanged; an entry that is not a tensor is dropped. *)
Theorem prepare_inputs_entries (device : string)
    (inputs : gmap string (gmap string pyvalue)) (k : string) :
  (_prepare_inputs device inputs !! k = None ↔ inputs !! k = None)
  ∧ ∀ v, inputs !! k = Some v →
      ∃ p, _prepare_inputs device inputs !! k = Some p
        ∧ ∀ sk,
            p !! sk = match v !! sk with
                      | Some (PyTensorOn _ t) => Some (PyTensorOn device t)
                      | _ => None
                      end.
Proof.
  rewrite prepare_outer, lookup_fmap. split.
  - destruct (inputs !! k); cbn; split; intros; first [reflexivity|discriminate].
  - intros v ->. cbn. eexists. split; [reflexivity|].
    intros sk. rewrite lookup_omap. destruct (v !! sk) as [[d t|s]|]; reflexivity.
Qed.

(** X14.  Preparing an already prepared batch changes nothing. *)
Theorem prepare_inputs_idempotent (device : string)
    (inputs : gmap string (gmap string pyvalue)) :
  _prepare_inputs device (_prepare_inputs device inputs)
    = _prepare_inputs device inputs.
Proof.
  rewrite !prepare_outer, <- map_fmap_compose.
  apply map_eq. intros k. rewrite !lookup_fmap.
  destruct (inputs !! k) as [v|]; [|reflexivity]. cbn. f_equal.
  apply map_eq. intros sk. rewrite !lookup_omap.
  destruct (v !! sk) as [[d t|s]|]; reflexivity.
Qed.
(** ** The sign of the Model A loss *)

Section TrainingStepValue.
Context `{NegLaws F} `{!Transcendental F}.

(** What [training_step] returns for any model instance. *)
Lemma training_step_value (self : TILDE F) (batch : Batch)
    (passage_logits query_logits : tensor F) (B Lp Lq V : nat) :
  bert_lm self (passage_input_ids batch) (passage_token_type_ids batch)
    (passage_attention_mask batch) = Some passage_logits →
  bert_lm self (query_input_ids batch) (query_token_type_ids batch)
    (query_ttention_mask batch) = Some query_logits →
  shape passage_logits = [B; Lp; V] → 0 < Lp →
  shape query_logits = [B; Lq; V] → 0 < Lq →
  shape (yqs batch) = [B; V] → wf (yqs batch) →
  shape (yds batch) = [B; V] → wf (yds batch) →
  (num_valid_tok self * 2)%Z ≠ 0%Z →
  training_step self batch =
    Some (fdiv (fadd (spec_side_loss B V passage_logits (yqs batch))
                     (spec_side_loss B V query_logits (yds batch)))
               (of_Z (num_valid_tok self * 2))).
Proof.
  intros Hlp Hlq Hsp HLp Hsq HLq Hyq Hwyq Hyd Hwyd Hnz.
  unfold training_step. rewrite Hlp. cbn [mbind option_bind].
  destruct (first_position_prob passage_logits B Lp V Hsp HLp)
    as (po & -> & Hbp & Hwbp & Hp). cbn [mbind option_bind].
  rewrite Hlq. cbn [mbind option_bind].
  destruct (first_position_prob query_logits B Lq V Hsq HLq)
    as (qo & -> & Hbq & Hwbq & Hq). cbn [mbind option_bind].
  unfold tsize. rewrite Hyq. cbn [lookup list_lookup mbind option_bind].
  destruct (loss_loop batch passage_logits query_logits
              (tmap fsigmoid po) (tmap fsigmoid qo) B V B
              Hbp Hwbp Hbq Hwbq Hyq Hwyq Hyd Hwyd Hp Hq (Nat.le_refl B))
    as (a & b & -> & Ha & Hb & Hkind).
  cbn [mbind option_bind].
  destruct B as [|B'].
  - destruct Hkind as [-> ->]. cbn [py_add py_div].
    rewrite (proj2 (Z.eqb_neq _ _) Hnz).
    do 2 f_equal. unfold spec_side_loss, tsum. cbn.
    rewrite fadd_0_l. apply of_Z_zero.
  - destruct Hkind as [[x ->] [y ->]]. cbn [py_add py_div to_F].
    cbn [to_F] in Ha, Hb. rewrite Ha, Hb. reflexivity.
Qed.

End TrainingStepValue.

Lemma sigmoid_range (x : R) : (0 < fsigmoid x < 1)%R.
Proof.
  cbn. pose proof (exp_pos (- x)) as He.
  assert (Hd : (0 < 1 + exp (- x))%R) by lra.
  split.
  - apply Rdiv_lt_0_compat; lra.
  - apply (Rmult_lt_reg_r (1 + exp (- x))); [exact Hd|].
    unfold Rdiv. rewrite Rmult_assoc, Rinv_l by lra. lra.
Qed.

Lemma ln_nonpos (y : R) : (0 < y < 1)%R → (ln y <= 0)%R.
Proof.
  intros [H0 H1]. rewrite <- ln_1. left. apply ln_increasing; assumption.
Qed.

Lemma foldl_Rplus_nonpos (l : list R) (a : R) :
  (a <= 0)%R → Forall (λ x, (x <= 0)%R) l → (foldl Rplus a l <= 0)%R.
Proof.
  intros Ha Hl. revert a Ha.
  induction Hl as [|x l Hx _ IH]; intros a Ha; [exact Ha|].
  cbn [foldl]. apply IH. lra.
Qed.

Lemma foldl_Rplus_nonneg (l : list R) (a : R) :
  (0 <= a)%R → Forall (λ x, (0 <= x)%R) l → (0 <= foldl Rplus a l)%R.
Proof.
  intros Ha Hl. revert a Ha.
  induction Hl as [|x l Hx _ IH]; intros a Ha; [exact Ha|].
  cbn [foldl]. apply IH. lra.
Qed.

Lemma tsum_nonpos (l : list R) : Forall (λ x, (x <= 0)%R) l → (tsum l <= 0)%R.
Proof. apply foldl_Rplus_nonpos, Rle_refl. Qed.

Lemma tsum_nonneg_R (l : list R) : Forall (λ x, (0 <= x)%R) l → (0 <= tsum l)%R.
Proof. apply foldl_Rplus_nonneg, Rle_refl. Qed.

Lemma spec_example_loss_nonneg (V : nat) (z : nat → R) (y : nat → Z) :
  (0 <= spec_example_loss V (λ j, fsigmoid (z j)) y)%R.
Proof.
  unfold spec_example_loss.
  assert (H1 : (tsum ((λ j, flog (fsigmoid (z j)))
                        <$> filter (λ j, y j = 1%Z) (seq 0 V)) <= 0)%R).
  { apply tsum_nonpos, Forall_fmap, Forall_forall. intros j _.
    apply ln_nonpos, sigmoid_range. }
  assert (H2 : (tsum ((λ j, flog (fsub (of_Z 1) (fsigmoid (z j))))
                        <$> filter (λ j, y j = 0%Z) (seq 0 V)) <= 0)%R).
  { apply tsum_nonpos, Forall_fmap, Forall_forall. intros j _.
    apply ln_nonpos. pose proof (sigmoid_range (z j)). cbn in *. lra. }
  cbn in *. lra.
Qed.

Lemma spec_side_loss_nonneg (B V : nat) (logits : tensor R) (ys : tensor Z) :
  (0 <= spec_side_loss B V logits ys)%R.
Proof.
  unfold spec_side_loss. apply tsum_nonneg_R, Forall_fmap, Forall_forall.
  intros i _. cbv beta delta [compose].
  exact (spec_example_loss_nonneg V (λ j, tget logits [i; 0; j])
           (λ j, tget ys [i; j])).
Qed.

(** X15.  In real arithmetic the loss [training_step] returns is never
    negative, whatever the logits and the labels, as soon as
    [num_valid_tok] is positive. *)
Theorem training_step_loss_nonneg (self : TILDE R) (batch : Batch)
    (passage_logits query_logits : tensor R) (B Lp Lq V : nat) :
  bert_lm self (passage_input_ids batch) (passage_token_type_ids batch)
    (passage_attention_mask batch) = Some passage_logits →
  bert_lm self (query_input_ids batch) (query_token_type_ids batch)
    (query_ttention_mask batch) = Some query_logits →
  shape passage_logits = [B; Lp; V] → 0 < Lp →
  shape query_logits = [B; Lq; V] → 0 < Lq →
  shape (yqs batch) = [B; V] → wf (yqs batch) →
  shape (yds batch) = [B; V] → wf (yds batch) →
  (0 < num_valid_tok self)%Z →
  ∃ loss, training_step self batch = Some loss ∧ (0 <= loss)%R.
Proof.
  intros Hlp Hlq Hsp HLp Hsq HLq Hyq Hwyq Hyd Hwyd Hpos.
  rewrite (training_step_value self batch passage_logits query_logits B Lp Lq V)
    by first [assumption | lia].
  eexists. split; [reflexivity|].
  pose proof (spec_side_loss_nonneg B V passage_logits (yqs batch)) as H1.
  pose proof (spec_side_loss_nonneg B V query_logits (yds batch)) as H2.
  assert (Hd : (0 < IZR (num_valid_tok self * 2))%R) by (apply IZR_lt; lia).
  cbn in *. apply Rmult_le_pos; [lra|]. left. apply Rinv_0_lt_compat, Hd.
Qed.
(** ** Documents without positions *)

Section EmptyDocuments.
Context `{Scalar F}.

(** X16.  On documents that have no position at all the maximum over the
    document positions does not exist: [compute_tok_score_cart] raises,
    however many queries and documents there are. *)
Theorem compute_tok_score_cart_empty_documents
    (Q LQ D : nat) (doc_reps : tensor F) (doc_input_ids : tensor Z)
    (qry_reps : tensor F) (qry_input_ids qry_attention_mask : tensor Z) :
  shape qry_input_ids = [Q; LQ] →
  shape doc_input_ids = [D; 0] →
  shape qry_reps = [Q; LQ; 1] →
  shape doc_reps = [D; 0; 1] →
  compute_tok_score_cart doc_reps doc_input_ids qry_reps qry_input_ids
    qry_attention_mask = None.
Proof.
  destruct doc_reps as [s1 dr], doc_input_ids as [s2 dd], qry_reps as [s3 qr],
    qry_input_ids as [s4 qd]. simpl.
  intros -> -> -> ->. unfold compute_tok_score_cart.
  rewrite exact_match_gate_eq. cbn [mbind option_bind].
  destruct (scores_no_masking_get Q LQ D 0 dr qr)
    as (dt & sm & -> & Hsm & Hsms & _).
  cbn [mbind option_bind]. rewrite Hsm. cbn [mbind option_bind].
  unfold view. cbn [shape data]. rewrite Hsms.
  assert (Hnum : numel (take 2 [Q; LQ; 1] ++ take 2 [D; 0; 1])
                 = numel [numel [Q; LQ; 1]; numel [D; 0; 1]]) by (cbn; lia).
  rewrite (proj2 (Nat.eqb_eq _ _) Hnum). cbn [mbind option_bind take app].
  destruct (broadcast2_get fmul (Tensor [Q; LQ; D; 0] (data sm))
              (to_float (tinit [Q; LQ; D; 0]
                 (λ idx, Z.eqb
                    (tget (Tensor [1; 1; D; 0] dd) (bidx 4 [1; 1; D; 0] idx))
                    (tget (Tensor [Q; LQ; 1; 1] qd) (bidx 4 [Q; LQ; 1; 1] idx)))))
              _ (broadcast_shape_diag4 Q LQ D 0))
    as (gated & Hg & Hgs & _ & _).
  unfold tmul. rewrite Hg. cbn [mbind option_bind].
  unfold tmax_dim. rewrite Hgs. reflexivity.
Qed.

End EmptyDocuments.

(** ** What [forward] reads *)

Section ForwardReads.
Context `{Scalar F}.

Lemma load_agree (h1 h2 : heap) (f : features) :
  (∀ k l, f !! k = Some l → h1 !! l = h2 !! l) → load h1 f = load h2 f.
Proof.
  intros Hag. unfold load. apply map_eq. intros k. rewrite !lookup_omap.
  destruct (f !! k) as [l|] eqn:E; [|reflexivity]. cbn. apply (Hag k l E).
Qed.

(** [mask_sep] reads the heap at the mask only. *)
Lemma mask_sep_agree (h1 h2 : heap) (ref : loc) :
  h1 !! ref = h2 !! ref →
  (mask_sep ref h1 = None ∧ mask_sep ref h2 = None)
  ∨ ∃ m', mask_sep ref h1 = Some (ref, <[ref := m']> h1)
        ∧ mask_sep ref h2 = Some (ref, <[ref := m']> h2).
Proof.
  intros Hag. unfold mask_sep. rewrite <- Hag.
  destruct (h1 !! ref) as [m|]; [|left; split; reflexivity].
  cbn [mbind option_bind].
  destruct (tsum_dimZ 1 m) as [s|]; [|left; split; reflexivity].
  cbn [mbind option_bind].
  destruct (unsqueeze 1 s) as [s'|]; [|left; split; reflexivity].
  cbn [mbind option_bind].
  destruct (scatter 1 m _ _) as [m'|]; [|left; split; reflexivity].
  cbn [mbind option_bind]. right. exists m'. split; reflexivity.
Qed.

Lemma lookup_insert_agree (h1 h2 : heap) (ref l : loc) (m : tensor Z) :
  h1 !! l = h2 !! l → <[ref := m]> h1 !! l = <[ref := m]> h2 !! l.
Proof.
  intros Hag. destruct (decide (ref = l)) as [->|Hne].
  - rewrite !lookup_insert_eq. reflexivity.
  - rewrite !lookup_insert_ne by exact Hne. exact Hag.
Qed.

(** X17.  The loss and the scores of [forward] depend on the caller's
    data through the tensors of the document features and through two
    tensors of the query only, its token ids and its attention mask: the
    query never goes through the backbone, and whatever else the query
    features or the heap hold is never read. *)
Theorem forward_reads (self : TILDEv2 F) (qry_in qry_in' doc_in : features)
    (h1 h2 : heap) (qi qm : loc) :
  qry_in !! "input_ids" = Some qi → qry_in' !! "input_ids" = Some qi →
  qry_in !! "attention_mask" = Some qm → qry_in' !! "attention_mask" = Some qm →
  h1 !! qi = h2 !! qi →
  h1 !! qm = h2 !! qm →
  (∀ k l, doc_in !! k = Some l → h1 !! l = h2 !! l) →
  (λ '(loss, flat, _), (loss, flat)) <$> forward self qry_in doc_in h1
    = (λ '(loss, flat, _), (loss, flat)) <$> forward self qry_in' doc_in h2.
Proof.
  intros Hqi Hqi' Hqm Hqm' Hi Hm Hdoc. unfold forward.
  rewrite (load_agree h1 h2 doc_in Hdoc).
  destruct (bert self (load h2 doc_in)) as [doc_out|]; [|reflexivity].
  cbn [mbind option_bind].
  destruct (tok_proj self doc_out) as [doc_reps|]; [|reflexivity].
  cbn [mbind option_bind].
  destruct (doc_in !! "input_ids") as [di|] eqn:Hdi; [|reflexivity].
  cbn [mbind option_bind]. rewrite Hqi, Hqi', Hqm, Hqm'. cbn [mbind option_bind].
  destruct (mask_sep_agree h1 h2 qm Hm) as [[-> ->]|(m' & -> & ->)];
    [reflexivity|]. cbn [mbind option_bind].
  rewrite (lookup_insert_agree h1 h2 qm qi m' Hi).
  rewrite (lookup_insert_agree h1 h2 qm di m' (Hdoc _ _ Hdi)).
  rewrite (lookup_insert_agree h1 h2 qm qm m' Hm).
  destruct (<[qm := m']> h2 !! qi) as [qry_ids|]; [|reflexivity].
  cbn [mbind option_bind].
  destruct (<[qm := m']> h2 !! di) as [doc_ids|]; [|reflexivity].
  cbn [mbind option_bind].
  destruct (<[qm := m']> h2 !! qm) as [qry_mask|]; [|reflexivity].
  cbn [mbind option_bind].
  destruct (unsqueeze 2 (ones_like qry_ids)) as [qry_reps|]; [|reflexivity].
  cbn [mbind option_bind].
  destruct (compute_tok_score_cart _ _ _ _ _) as [scores|]; [|reflexivity].
  cbn [mbind option_bind].
  destruct (ranking_labels self scores) as [labels|]; [|reflexivity].
  cbn [mbind option_bind].
  destruct (cross_entropy self scores labels) as [loss|]; reflexivity.
Qed.

End ForwardReads.
(** ** [_save] when a callee raises *)

Section SaveErrors.
Context {Model Dataset Collator Sampler : Type}.

(** X18.  When [os.makedirs] raises, as it does on the empty path
    whatever the file system, [_save] ends there and nothing has been
    written; and whenever the training arguments have been written, every
    call before them completed and the method returned. *)
Theorem save_raise_stops (fs : FileSystem)
    (self : @TILDEv2Trainer Model Dataset Collator Sampler) (dir : option string) :
  (default (output_dir (args self)) dir = EmptyString
   ∨ fails fs (MakeDirs (default (output_dir (args self)) dir)) = true →
   _save fs self dir
     = ([], RaisedAt (MakeDirs (default (output_dir (args self)) dir))))
  ∧ (∀ a p, TorchSave a p ∈ (_save fs self dir).1 →
       (_save fs self dir).2 = Returned
       ∧ ModelSavePretrained (default (output_dir (args self)) dir)
           ∈ (_save fs self dir).1).
Proof.
  split.
  - intros Hd. unfold _save, perform.
    assert (E : raises fs (MakeDirs (default (output_dir (args self)) dir)) = true).
    { destruct Hd as [-> | Hd]; [reflexivity|].
      unfold raises. destruct (default _ _); [reflexivity|exact Hd]. }
    rewrite E. reflexivity.
  - intros a p. unfold _save, perform.
    destruct (raises fs (MakeDirs _)); [intros Hin; mem_inv Hin|].
    destruct (raises fs (ModelSavePretrained _)); [intros Hin; mem_inv Hin|].
    destruct (has_tokenizer self && is_world_process_zero self).
    + destruct (raises fs (TokenizerSavePretrained _));
        [intros Hin; mem_inv Hin|].
      destruct (raises fs (TorchSave _ _)); [intros Hin; mem_inv Hin|].
      intros _. split; [reflexivity|]. cbn. repeat constructor.
    + destruct (raises fs (TorchSave _ _)); [intros Hin; mem_inv Hin|].
      intros _. split; [reflexivity|]. cbn. repeat constructor.
Qed.

End SaveErrors.
(** ** More laws on the rationals and on the reals *)

Global Instance Q_relu_law : ReluLaw Q.
Proof. split; cbn. intros a. apply Q.le_max_r. Qed.

Global Instance R_zero_laws : ZeroLaws R.
Proof.
  split; cbn.
  - apply Rmult_0_r.
  - apply Rmult_0_l.
  - apply Rplus_0_l.
  - apply Rmax_left, Rle_refl.
  - reflexivity.
Qed.

(** ** The further properties at work on the sample data *)

Import Scenario Samples.

Lemma compute_tok_score_cart_cell_witness :
  ∃ tok_scores,
    compute_tok_score_cart doc_reps doc_ids qry_reps qry_ids qry_mask_sep
      = Some tok_scores
    ∧ shape tok_scores = [1; 8]
    ∧ ∀ q d, q < 1 → d < 8 →
        tget tok_scores [q; d] =
          tsum ((λ l, position_score 3 doc_reps doc_ids qry_reps qry_ids
                        qry_mask_sep q d (S l)) <$> seq 0 (3 - 1)).
Proof.
  refine (compute_tok_score_cart_cell (F := Q) 1 3 8 3 doc_reps doc_ids
            qry_reps qry_ids qry_mask_sep eq_refl eq_refl eq_refl eq_refl eq_refl _).
  lia.
Defined.

Lemma compute_tok_score_cart_ignores_first_position_witness :
  ∃ tok_scores,
    compute_tok_score_cart doc_reps doc_ids qry_reps qry_ids qry_mask_sep
      = Some tok_scores
    ∧ compute_tok_score_cart doc_reps doc_ids qry_reps' qry_ids' qry_mask'
        = Some tok_scores.
Proof.
  refine (compute_tok_score_cart_ignores_first_position (F := Q) 1 3 8 3
            doc_reps doc_ids qry_reps qry_reps' qry_ids qry_ids'
            qry_mask_sep qry_mask'
            eq_refl eq_refl eq_refl eq_refl eq_refl eq_refl eq_refl eq_refl _ _).
  - lia.
  - intros q lq Hq Hlq. replace q with 0 by lia.
    destruct lq as [|[|[|lq]]]; [lia| | |lia]; repeat split; reflexivity.
Defined.

Lemma compute_tok_score_cart_no_match_witness :
  ∃ tok_scores,
    compute_tok_score_cart doc_reps_R doc_ids qry_reps_R qry_ids qry_mask_sep
      = Some tok_scores
    ∧ tget tok_scores [0; 0] = 0%R.
Proof.
  refine (compute_tok_score_cart_no_match (F := R) 1 3 8 3 doc_reps_R doc_ids
            qry_reps_R qry_ids qry_mask_sep 0 0
            eq_refl eq_refl eq_refl eq_refl eq_refl _ _ _ _); [lia..|].
  intros lq Hlq. destruct lq as [|[|[|lq]]]; [lia| | |lia].
  - right. intros ld Hld. destruct ld as [|[|[|ld]]]; [discriminate..|lia].
  - left. reflexivity.
Defined.

Lemma forward_scores_nonneg_witness :
  Forall (λ x, SFleb (S754_zero false) x = true) (data (view_m1 scores32)).
Proof.
  refine (forward_scores_nonneg (F := spec_float) probe_model32 qry_in doc_in
            example_heap (<[1 := qry_mask_sep]> example_heap) fzero
            (view_m1 scores32) 1 qry_mask doc_reps32 doc_reps32
            _ eq_refl eq_refl _ _ eq_refl _).
  - vm_compute. reflexivity.
  - cbn. repeat (apply Forall_cons_2; [unfold is_bit; auto|]). apply Forall_nil_2.
  - vm_compute. reflexivity.
  - cbn. repeat (apply Forall_cons_2; [reflexivity|]). apply Forall_nil_2.
Defined.


Lemma forward_uses_encode_witness :
  ∃ doc_reps doc_ids qry_reps qry_ids qry_mask scores,
    encode probe_model example_heap doc_in = Ok doc_reps
    ∧ compute_tok_score_cart doc_reps doc_ids qry_reps qry_ids qry_mask
      = Some scores
    ∧ view_m1 Scenario.scores = view_m1 scores.
Proof.
  refine (forward_uses_encode (F := Q) probe_model qry_in doc_in example_heap
            (<[1 := qry_mask_sep]> example_heap) 0%Q (view_m1 Scenario.scores)
            _ _ _).
  - vm_compute. reflexivity.
  - exists 4. reflexivity.
  - exists 5. reflexivity.
Defined.

Lemma forward_side_effect_witness :
  ∃ m',
    <[1 := qry_mask_sep]> example_heap = <[1 := m']> example_heap
    ∧ shape m' = [1; 3]
    ∧ ∀ i, i < 1 →
        ∃ k, k < 3
          ∧ Z.of_nat k = sep_index qry_mask i
          ∧ tget m' [i; k] = 0%Z
          ∧ ∀ j, j < 3 → j ≠ k → tget m' [i; j] = tget qry_mask [i; j].
Proof.
  refine (forward_side_effect (F := Q) probe_model qry_in doc_in example_heap
            (<[1 := qry_mask_sep]> example_heap) 0%Q (view_m1 Scenario.scores)
            1 qry_mask 1 3 _ eq_refl eq_refl eq_refl eq_refl).
  vm_compute. reflexivity.
Defined.

Lemma mask_sep_shortens_prefix_witness :
  ∃ m',
    mask_sep 1 example_heap = Some (1, <[1 := m']> example_heap)
    ∧ shape m' = [1; 3]
    ∧ ∀ i, i < 1 → attends_prefix m' 3 i (3 - 1).
Proof.
  refine (mask_sep_shortens_prefix example_heap 1 qry_mask 1 3 (λ _, 3)
            eq_refl eq_refl eq_refl _).
  intros i Hi. replace i with 0 by lia. split; [lia|].
  intros j Hj. destruct j as [|[|[|j]]]; [reflexivity..|lia].
Defined.

Lemma mask_sep_twice_witness :
  ∃ m'',
    mask_sep 1 example_heap ≫= (λ '(r, h1), mask_sep r h1)
      = Some (1, <[1 := m'']> example_heap)
    ∧ shape m'' = [1; 3]
    ∧ ∀ i, i < 1 → attends_prefix m'' 3 i (3 - 2).
Proof.
  refine (mask_sep_twice example_heap 1 qry_mask 1 3 (λ _, 3)
            eq_refl eq_refl eq_refl _).
  intros i Hi. replace i with 0 by lia. split; [lia|].
  intros j Hj. destruct j as [|[|[|j]]]; [reflexivity..|lia].
Defined.

Lemma ranking_labels_first_of_group_witness :
  ∃ labels,
    ranking_labels probe_model Scenario.scores = Some labels
    ∧ shape labels = [1]
    ∧ ∀ i, i < 1 →
        tget labels [i] = Z.of_nat (i * 8)
        ∧ (0 ≤ tget labels [i] < Z.of_nat 8)%Z
        ∧ ∀ j, j < 1 → tget labels [j] = tget labels [i] → j = i.
Proof.
  refine (ranking_labels_first_of_group (F := Q) probe_model Scenario.scores 1 8 8
            eq_refl eq_refl _ eq_refl).
  lia.
Defined.

Lemma TILDE_forward_first_position_witness :
  (0 < 1 →
     ∃ outputs,
       TILDE_forward (TILDE_init stop_ids lm tok) (ids2, ids2, ids2) = Some outputs
       ∧ shape outputs = [1; 2]
       ∧ wf outputs
       ∧ ∀ i j, i < 1 → j < 2 → tget outputs [i; j] = tget zero_logits [i; 0; j])
  ∧ (1 = 0 →
     TILDE_forward (TILDE_init stop_ids lm tok) (ids2, ids2, ids2) = None).
Proof.
  refine (TILDE_forward_first_position (F := R) (TILDE_init stop_ids lm tok)
            ids2 ids2 ids2 zero_logits 1 1 2 eq_refl eq_refl).
Defined.

Lemma training_step_fewer_query_labels_witness :
  training_step (TILDE_init stop_ids lm tok) short_batch = None.
Proof.
  refine (training_step_fewer_query_labels (F := R) (TILDE_init stop_ids lm tok)
            short_batch 1 0 2 2 eq_refl eq_refl _).
  lia.
Defined.

Lemma training_step_loss_nonneg_witness :
  ∃ loss, training_step (TILDE_init stop_ids lm tok) batch = Some loss
          ∧ (0 <= loss)%R.
Proof.
  refine (training_step_loss_nonneg (TILDE_init stop_ids lm tok) batch
            zero_logits zero_logits 1 1 1 2
            eq_refl eq_refl eq_refl _ eq_refl _ eq_refl eq_refl eq_refl eq_refl _);
    [lia|lia|].
  vm_compute. reflexivity.
Defined.

Lemma compute_tok_score_cart_empty_documents_witness :
  compute_tok_score_cart no_doc_reps no_doc_ids qry_reps qry_ids qry_mask_sep = None.
Proof.
  refine (compute_tok_score_cart_empty_documents (F := Q) 1 3 8 no_doc_reps
            no_doc_ids qry_reps qry_ids qry_mask_sep eq_refl eq_refl eq_refl eq_refl).
Defined.

Lemma forward_reads_witness :
  (λ '(loss, flat, _), (loss, flat)) <$> forward probe_model qry_in doc_in example_heap
    = (λ '(loss, flat, _), (loss, flat))
        <$> forward probe_model qry_in_two_keys doc_in larger_heap.
Proof.
  refine (forward_reads (F := Q) probe_model qry_in qry_in_two_keys doc_in
            example_heap larger_heap 0 1 eq_refl eq_refl eq_refl eq_refl
            eq_refl eq_refl _).
  intros k l Hk. unfold larger_heap. rewrite lookup_insert_ne; [reflexivity|].
  intros <-. unfold doc_in in Hk.
  apply lookup_insert_Some in Hk as [[_ Hk]|[_ Hk]]; [discriminate|].
  apply lookup_insert_Some in Hk as [[_ Hk]|[_ Hk]]; [discriminate|].
  apply lookup_singleton_Some in Hk as [_ Hk]. discriminate.
Defined.

Example prepare_inputs_sample :
  _prepare_inputs "cuda:0"
    {[ "qry_in" := {[ "input_ids" := PyTensorOn "cpu" qry_ids;
                      "text" := PyOther "what is tilde" ]} ]}
  = {[ "qry_in" := {[ "input_ids" := PyTensorOn "cuda:0" qry_ids ]} ]}.
Proof. vm_compute. reflexivity. Qed.
